(** * DefaultSyntaxChooser: the dialect enumerator and the syntax patcher

    A shallow embedding of [default_syntax.py].  The plugin has two parts:
    [DialectFileInputHandler.list_items], which lists the dialects an
    umbrella syntax may extend, and [SetDefaultSyntaxDialect.run], which
    rewrites the umbrella's [extends:] line with [re.sub] and writes the
    file back when the text changed.

    Python strings are sequences of Unicode code points, the regular
    expressions are run by a small backtracking matcher that follows the
    order in which Python's [re] tries alternatives, and the replacement
    template goes through a model of [re]'s template parser, because the
    dialect path is spliced into the template text. *)

From Stdlib Require Import List NArith ZArith Bool Arith Lia String Ascii.
Import ListNotations.

Set Implicit Arguments.

(** ** Strings *)

Definition char := N.
Definition str := list char.

(** An ASCII literal as a Python string. *)
Definition lit (x : string) : str := map N_of_ascii (list_ascii_of_string x).

Definition chr_nl : char := 10%N.
Definition chr_quote : char := 34%N.
Definition chr_dash : char := 45%N.
Definition chr_dot : char := 46%N.
Definition chr_slash : char := 47%N.
Definition chr_lt : char := 60%N.
Definition chr_gt : char := 62%N.
Definition chr_backslash : char := 92%N.
Definition chr_g : char := 103%N.

Fixpoint str_eqb (a b : str) : bool :=
  match a, b with
  | [], [] => true
  | x :: a', y :: b' => N.eqb x y && str_eqb a' b'
  | _, _ => false
  end.

(** [a.startswith(b)] *)
Fixpoint startswith (a b : str) : bool :=
  match b, a with
  | [], _ => true
  | y :: b', x :: a' => N.eqb x y && startswith a' b'
  | _ :: _, [] => false
  end.

(** [a.split(sep)] for a one-character separator: the pieces between the
    separators, always at least one piece. *)
Fixpoint split_on (sep : char) (a : str) : list str :=
  match a with
  | [] => [[]]
  | c :: a' =>
      if N.eqb c sep then [] :: split_on sep a'
      else match split_on sep a' with
           | [] => [[c]]
           | p :: ps => (c :: p) :: ps
           end
  end.

(** [sep.join(parts)] *)
Fixpoint join (sep : str) (parts : list str) : str :=
  match parts with
  | [] => []
  | [p] => p
  | p :: ps => p ++ sep ++ join sep ps
  end.

(** [\s] on a [str] pattern: the code points for which CPython's
    [Py_UNICODE_ISSPACE] holds. *)
Definition isspace (c : char) : bool :=
  ((0x09 <=? c) && (c <=? 0x0D) || (0x1C <=? c) && (c <=? 0x20)
   || (c =? 0x85) || (c =? 0xA0) || (c =? 0x1680)
   || (0x2000 <=? c) && (c <=? 0x200A)
   || (c =? 0x2028) || (c =? 0x2029) || (c =? 0x202F) || (c =? 0x205F)
   || (c =? 0x3000))%N.

Definition is_digit (c : char) : bool := ((48 <=? c) && (c <=? 57))%N.
Definition is_octdigit (c : char) : bool := ((48 <=? c) && (c <=? 55))%N.
Definition is_ascii_letter (c : char) : bool :=
  ((65 <=? c) && (c <=? 90) || (97 <=? c) && (c <=? 122))%N.
Definition digit_val (c : char) : N := (c - 48)%N.

(** ** The regular expressions of the plugin

    Only the constructs the two patterns use: [^] under [re.MULTILINE],
    a literal character, a greedy [+] over [\s] or [\S], concatenation, a
    greedy [?], and the capturing group. *)

Inductive cls := Space | NonSpace.

Definition in_cls (k : cls) (c : char) : bool :=
  match k with
  | Space => isspace c
  | NonSpace => negb (isspace c)
  end.

Inductive regex :=
| Bol
| Chr (c : char)
| Plus (k : cls)
| Cat (r1 r2 : regex)
| Opt (r : regex)
| Grp (r : regex).

(** The span of group 1, as offsets from the start of the match. *)
Definition caps := option (nat * nat).

Definition is_nl (c : char) : bool := N.eqb c chr_nl.

(** Greedy [+] over one character class: take as many characters as
    possible and give them back one at a time while the rest of the pattern
    fails.  [k] receives whether the new position is at the beginning of a
    line, the new offset and the remaining text. *)
Fixpoint rep1 (p : char -> bool) (pos : nat) (s : str)
    (k : bool -> nat -> str -> option (nat * caps)) : option (nat * caps) :=
  match s with
  | [] => None
  | c :: s' =>
      if p c then
        match rep1 p (S pos) s' k with
        | Some r => Some r
        | None => k (is_nl c) (S pos) s'
        end
      else None
  end.

(** The backtracking matcher, in continuation-passing style.  [bol] tells
    whether the current position is the start of the text or follows a line
    feed; [pos] is the offset from the start of the match. *)
Fixpoint mtch (r : regex) (bol : bool) (pos : nat) (s : str) (g : caps)
    (k : bool -> nat -> str -> caps -> option (nat * caps))
    : option (nat * caps) :=
  match r with
  | Bol => if bol then k bol pos s g else None
  | Chr c =>
      match s with
      | c' :: s' => if N.eqb c' c then k (is_nl c') (S pos) s' g else None
      | [] => None
      end
  | Plus cl => rep1 (in_cls cl) pos s (fun b p s' => k b p s' g)
  | Cat r1 r2 => mtch r1 bol pos s g (fun b p s' g' => mtch r2 b p s' g' k)
  | Opt r1 =>
      match mtch r1 bol pos s g k with
      | Some x => Some x
      | None => k bol pos s g
      end
  | Grp r1 => mtch r1 bol pos s g (fun b p s' _ => k b p s' (Some (pos, p)))
  end.

(** One match attempt at the current position: the length of the match and
    the span of group 1. *)
Definition match_here (r : regex) (bol : bool) (s : str) : option (nat * caps) :=
  mtch r bol 0 s None (fun _ p _ g => Some (p, g)).

(** A match object: start and end offsets in the searched text, group 1. *)
Record Match := mkMatch { m_start : nat; m_end : nat; m_caps : caps }.

(** [re.search]: the leftmost position at which an attempt succeeds. *)
Fixpoint search_from (r : regex) (bol : bool) (off : nat) (s : str) : option Match :=
  match match_here r bol s with
  | Some (e, g) => Some (mkMatch off (off + e) g)
  | None =>
      match s with
      | [] => None
      | c :: s' => search_from r (is_nl c) (S off) s'
      end
  end.

Definition search (r : regex) (s : str) : option Match := search_from r true 0 s.

Definition substr (a b : nat) (s : str) : str := firstn (b - a) (skipn a s).

(** [match.group(1)] on the searched text. *)
Definition group1 (s : str) (m : Match) : str :=
  match m_caps m with
  | Some (a, b) => substr (m_start m + a) (m_start m + b) s
  | None => []
  end.

Fixpoint lits (cs : str) (r : regex) : regex :=
  match cs with
  | [] => r
  | c :: cs' => Cat (Chr c) (lits cs' r)
  end.

Definition kw_extends : str := lit "extends:".

(** [^extends:\s+(?:-\s+)?] *)
Definition directive_re : regex :=
  Cat Bol (lits kw_extends (Cat (Plus Space) (Opt (Cat (Chr chr_dash) (Plus Space))))).

(** [r"^extends:\s+(?:-\s+)?(\S+)"], the pattern of [list_items]. *)
Definition list_pattern : regex := Cat directive_re (Grp (Plus NonSpace)).

(** [r"(^extends:\s+(?:-\s+)?)\S+"], the pattern of [run]. *)
Definition run_pattern : regex := Cat (Grp directive_re) (Plus NonSpace).

(** ** Exceptions *)

Inductive exn := IndexError | FileNotFoundError | ReError | OSError.

Inductive result (A : Type) :=
| Ok (a : A)
| Raise (e : exn).
Arguments Ok {A} a.
Arguments Raise {A} e.

(** ** Replacement templates

    [re.sub] hands a replacement that contains a backslash to the template
    parser of [re].  The template of [run] is the raw text [\1] followed by
    the dialect path, so the path is parsed as template text too.

    The parser's tokenizer reads one token ahead, so a backslash that ends
    the template is an error as soon as the token before it is taken.  Every
    error of the parser is [re.error] but one, the unknown group name, so
    the look-ahead shows only after the [>] of a group name. *)

Inductive titem :=
| TLit (c : str)
| TGroup (i : nat).

Section Template.

(** [str.isidentifier] and [int(name)] ([None] for [ValueError]) are
    Python built-ins; the parser consults them for a [\g<name>]
    reference. *)
Variable isidentifier : str -> bool.
Variable py_int : str -> option Z.
(** [pattern.groups] *)
Variable groups : nat.

Definition then_item (it : titem) (rest : result (list titem)) : result (list titem) :=
  match rest with
  | Ok l => Ok (it :: l)
  | Raise e => Raise e
  end.

(** [addgroup(index, pos)] *)
Definition addgroup (index : nat) (rest : result (list titem)) : result (list titem) :=
  if groups <? index then Raise ReError else then_item (TGroup index) rest.

(** The index named by [\g<name>]; the patterns here have no named
    group, so an identifier is an unknown group name. *)
Definition named_group (name : str) (rest : result (list titem)) : result (list titem) :=
  if isidentifier name then Raise IndexError
  else match py_int name with
       | None => Raise ReError
       | Some i => if (i <? 0)%Z then Raise ReError else addgroup (Z.to_nat i) rest
       end.

(** [ESCAPES] of the template parser. *)
Definition escape_of (c : char) : option char :=
  (if c =? 97 then Some 7 else if c =? 98 then Some 8
   else if c =? 102 then Some 12 else if c =? 110 then Some 10
   else if c =? 114 then Some 13 else if c =? 116 then Some 9
   else if c =? 118 then Some 11 else if c =? 92 then Some 92
   else None)%N.

Fixpoint parse_template (t : str) : result (list titem) :=
  match t with
  | [] => Ok []
  | c :: t1 =>
      if N.eqb c chr_backslash then
        match t1 with
        | [] => Raise ReError
        | e :: t2 =>
            if N.eqb e chr_g then
              match t2 with
              | l :: t3 => if N.eqb l chr_lt then group_name t3 [] else Raise ReError
              | [] => Raise ReError
              end
            else if N.eqb e 48 then
              match t2 with
              | d1 :: t3 =>
                  if is_octdigit d1 then
                    match t3 with
                    | d2 :: t4 =>
                        if is_octdigit d2
                        then then_item
                               (TLit [N.land (digit_val d1 * 8 + digit_val d2) 255])
                               (parse_template t4)
                        else then_item (TLit [N.land (digit_val d1) 255]) (parse_template t3)
                    | [] => then_item (TLit [N.land (digit_val d1) 255]) (parse_template t3)
                    end
                  else then_item (TLit [0%N]) (parse_template t2)
              | [] => then_item (TLit [0%N]) (parse_template t2)
              end
            else if is_digit e then
              match t2 with
              | d1 :: t3 =>
                  if is_digit d1 then
                    match t3 with
                    | d2 :: t4 =>
                        if is_octdigit e && is_octdigit d1 && is_octdigit d2 then
                          let v := (digit_val e * 64 + digit_val d1 * 8 + digit_val d2)%N in
                          if (255 <? v)%N then Raise ReError
                          else then_item (TLit [v]) (parse_template t4)
                        else addgroup (N.to_nat (digit_val e * 10 + digit_val d1))
                               (parse_template t3)
                    | [] => addgroup (N.to_nat (digit_val e * 10 + digit_val d1))
                              (parse_template t3)
                    end
                  else addgroup (N.to_nat (digit_val e)) (parse_template t2)
              | [] => addgroup (N.to_nat (digit_val e)) (parse_template t2)
              end
            else
              match escape_of e with
              | Some x => then_item (TLit [x]) (parse_template t2)
              | None =>
                  if is_ascii_letter e then Raise ReError
                  else then_item (TLit [c; e]) (parse_template t2)
              end
        end
      else then_item (TLit [c]) (parse_template t1)
  end
with group_name (t : str) (acc : str) : result (list titem) :=
  match t with
  | [] => Raise ReError
  | c :: t1 =>
      if N.eqb c chr_gt then
        match acc with
        | [] => Raise ReError
        | _ :: _ =>
            match t1 with
            | [b] =>
                if N.eqb b chr_backslash then Raise ReError
                else named_group acc (parse_template t1)
            | _ => named_group acc (parse_template t1)
            end
        end
      else if N.eqb c chr_backslash then
        match t1 with
        | [] => Raise ReError
        | e :: t2 => group_name t2 (acc ++ [c; e])
        end
      else group_name t1 (acc ++ [c])
  end.

End Template.

(** [match.group(i)] for a template item, on the matched text [whole]; a
    group that did not take part gives the empty string. *)
Definition expand_item (whole : str) (g : caps) (it : titem) : str :=
  match it with
  | TLit c => c
  | TGroup O => whole
  | TGroup (S _) =>
      match g with
      | Some (a, b) => substr a b whole
      | None => []
      end
  end.

(** [expand_template] *)
Definition expand (tpl : list titem) (whole : str) (g : caps) : str :=
  flat_map (expand_item whole g) tpl.

(** The loop of [re.sub] with [count=0]: copy the text up to the next match,
    put the expansion in place of the match, go on after it.  [skip] counts
    the characters of the current match that are still to be dropped.  The
    second component counts the substitutions, as [re.subn] reports them.
    An empty match would be followed by one copied character; the patterns
    of this plugin cannot match the empty string. *)
Fixpoint sub_loop (r : regex) (tpl : list titem) (bol : bool) (skip : nat) (s : str)
    : str * nat :=
  match skip with
  | S n =>
      match s with
      | [] => ([], 0)
      | c :: s' => sub_loop r tpl (is_nl c) n s'
      end
  | O =>
      match match_here r bol s with
      | Some (e, g) =>
          let rep := expand tpl (firstn e s) g in
          match s with
          | [] => (rep, 1)
          | c :: s' =>
              match e with
              | S n =>
                  let (out, cnt) := sub_loop r tpl (is_nl c) n s' in
                  (rep ++ out, S cnt)
              | O =>
                  let (out, cnt) := sub_loop r tpl (is_nl c) 0 s' in
                  (rep ++ c :: out, S cnt)
              end
          end
      | None =>
          match s with
          | [] => ([], 0)
          | c :: s' =>
              let (out, cnt) := sub_loop r tpl (is_nl c) 0 s' in
              (c :: out, cnt)
          end
      end
  end.

(** ** The host: Sublime Text and the Python runtime *)

(** [sublime.Syntax] *)
Record Syntax := mkSyntax {
  path : str;
  name : str;
  hidden : bool;
  scope : str
}.

(** [Syntax.__eq__] compares the resource paths. *)
Definition syntax_eqb (a b : Syntax) : bool := str_eqb (path a) (path b).

Record Host := mkHost {
  (** [sublime.list_syntaxes()] *)
  list_syntaxes : list Syntax;
  (** [sublime.syntax_from_path(path)] *)
  syntax_from_path : str -> option Syntax;
  (** [sublime.load_resource(name)]; [None] when it raises
      [FileNotFoundError] *)
  load_resource : str -> option str;
  (** [sublime.packages_path()] *)
  packages_path : str;
  (** whether [open(file, "w")] succeeds *)
  can_open_w : str -> bool;
  (** [str.isidentifier] *)
  py_isidentifier : str -> bool;
  (** [int(s)], [None] for [ValueError] *)
  py_int : str -> option Z
}.

(** [re.sub(pattern, repl, string, flags=re.MULTILINE)] for a pattern with
    [groups] groups; the template is compiled before the first search. *)
Definition re_subn (h : Host) (r : regex) (groups : nat) (repl s : str)
    : result (str * nat) :=
  match parse_template (py_isidentifier h) (py_int h) groups repl with
  | Raise e => Raise e
  | Ok tpl => Ok (sub_loop r tpl true 0 s)
  end.

Definition re_sub (h : Host) (r : regex) (groups : nat) (repl s : str) : result str :=
  match re_subn h r groups repl s with
  | Raise e => Raise e
  | Ok (out, _) => Ok out
  end.

(** ** [pathlib] paths, POSIX flavour

    A parsed path is its root ([/], [//] or nothing) and its components.
    The host is a POSIX system, where [Path] is [PosixPath]; the drive and
    the backslash separator of [WindowsPath] are not modelled.  The
    statements that name the file written take the packages directory as an
    absolute POSIX path. *)

Record PurePath := mkPath { p_root : str; p_parts : list str }.

Fixpoint lstrip_slash (p : str) : str :=
  match p with
  | c :: p' => if N.eqb c chr_slash then lstrip_slash p' else p
  | [] => []
  end.

(** [splitroot] *)
Definition splitroot (p : str) : str * str :=
  match p with
  | c :: _ =>
      if N.eqb c chr_slash then
        let stripped := lstrip_slash p in
        if Nat.eqb (List.length p - List.length stripped) 2
        then ([chr_slash; chr_slash], stripped)
        else ([chr_slash], stripped)
      else ([], p)
  | [] => ([], p)
  end.

Definition keep_part (x : str) : bool :=
  negb (str_eqb x []) && negb (str_eqb x [chr_dot]).

(** [Path(p)] for one string argument *)
Definition parse_path (p : str) : PurePath :=
  let (root, rel) := splitroot p in
  mkPath root (filter keep_part (split_on chr_slash rel)).

(** [Path.parent] *)
Definition path_parent (p : PurePath) : PurePath :=
  mkPath (p_root p) (removelast (p_parts p)).

(** [p / key] for a string [key] *)
Definition path_join (p : PurePath) (key : str) : PurePath :=
  let q := parse_path key in
  match p_root q with
  | [] => mkPath (p_root p) (p_parts p ++ p_parts q)
  | _ :: _ => q
  end.

(** [str(p)], which [open] receives through [os.fspath] *)
Definition fspath (p : PurePath) : str :=
  match p_root p ++ join [chr_slash] (p_parts p) with
  | [] => [chr_dot]
  | x => x
  end.

(** ** Effects *)

Inductive effect :=
| Print (msg : str)
  (** [with open(file, "w", encoding=..., newline=...) as out: out.write(data)] *)
| OpenWrite (file encoding newline data : str).

Fixpoint replace_nl (by_ : str) (data : str) : str :=
  match data with
  | [] => []
  | c :: d => (if is_nl c then by_ else [c]) ++ replace_nl by_ d
  end.

(** What a text file opened with [newline=nl] stores for [data]: with the
    empty string or a line feed the text is written as it is, otherwise every
    line feed becomes [nl]. *)
Definition written_text (nl : str) (data : str) : str :=
  if str_eqb nl [] || str_eqb nl [chr_nl] then data else replace_nl nl data.

(** A file system: the text of each file, by file name. *)
Definition files := str -> option str.

(** Mode ["w"] creates the file or truncates it, so the text written is the
    whole content afterwards. *)
Definition apply_effect (f : files) (e : effect) : files :=
  match e with
  | Print _ => f
  | OpenWrite file _ nl data =>
      fun p => if str_eqb p file then Some (written_text nl data) else f p
  end.

Definition apply_effects (f : files) (es : list effect) : files :=
  fold_left apply_effect es f.

Definition is_write (e : effect) : bool :=
  match e with
  | OpenWrite _ _ _ _ => true
  | Print _ => false
  end.

(** ** The dialect enumerator *)

Inductive KindId := KIND_ID_AMBIGUOUS.

Definition Kind : Type := KindId * str * str.

(** [sublime.KIND_AMBIGUOUS] *)
Definition KIND_AMBIGUOUS : Kind := (KIND_ID_AMBIGUOUS, [], []).

(** [selected_kind]; the letter is the three code points the source file
    holds. *)
Definition selected_kind : Kind :=
  (KIND_ID_AMBIGUOUS, [0xE2; 0x153; 0x201C]%N, lit "Selected").

(** [sublime.ListInputItem] *)
Record ListInputItem := mkItem {
  text : str;
  value : str;
  kind : Kind
}.

(** [syntax == selected_syntax], where [selected_syntax] may be [None] *)
Definition is_selected (syntax : Syntax) (selected_syntax : option Syntax) : bool :=
  match selected_syntax with
  | Some sel => syntax_eqb syntax sel
  | None => false
  end.

(** One turn of the [for] loop of [list_items]. *)
Definition list_items_step (default_syntax : Syntax) (default_scope : str)
    (selected_syntax : option Syntax) (items : list ListInputItem) (syntax : Syntax)
    : list ListInputItem :=
  if hidden syntax then items
  else if syntax_eqb syntax default_syntax then items
  else if negb (startswith (scope syntax) default_scope) then items
  else items ++ [mkItem (name syntax) (path syntax)
                   (if is_selected syntax selected_syntax
                    then selected_kind else KIND_AMBIGUOUS)].

(** The first two scope levels, [f"{default_scopes[0]}.{default_scopes[1]}"] *)
Definition filter_scope (scope_ : str) : result str :=
  let default_scopes := split_on chr_dot scope_ in
  match nth_error default_scopes 0, nth_error default_scopes 1 with
  | Some s0, Some s1 => Ok (s0 ++ [chr_dot] ++ s1)
  | _, _ => Raise IndexError
  end.

(** The syntax the [extends:] line names, if any. *)
Definition selected_of (h : Host) (content : str) : option Syntax :=
  match search list_pattern content with
  | Some m => syntax_from_path h (group1 content m)
  | None => None
  end.

(** [DialectFileInputHandler.list_items] *)
Definition list_items (h : Host) (default_syntax : Syntax) : result (list ListInputItem) :=
  match filter_scope (scope default_syntax) with
  | Raise e => Raise e
  | Ok default_scope =>
      match load_resource h (path default_syntax) with
      | None => Raise FileNotFoundError
      | Some content =>
          let selected_syntax := selected_of h content in
          Ok (fold_left
                (list_items_step default_syntax default_scope selected_syntax)
                (list_syntaxes h) [])
      end
  end.

(** ** The syntax patcher *)

(** [rf"\1{dialect_syntax.path}"] *)
Definition run_template (dialect_path : str) : str :=
  [chr_backslash; 49%N] ++ dialect_path.

(** The [re.sub] call of [run]. *)
Definition new_content_of (h : Host) (dialect_path old_content : str) : result str :=
  re_sub h run_pattern 1 (run_template dialect_path) old_content.

Definition msg_no_target (syntax_file : str) : str :=
  lit "Error: " ++ [chr_quote] ++ syntax_file ++ [chr_quote]
      ++ lit " is no valid target syntax!".

Definition msg_no_syntax (dialect_file : str) : str :=
  lit "Error: " ++ [chr_quote] ++ dialect_file ++ [chr_quote]
      ++ lit " is no valid syntax!".

(** Where [run] writes: [Path(sublime.packages_path()).parent / path] *)
Definition target_file (h : Host) (resource : str) : str :=
  fspath (path_join (path_parent (parse_path (packages_path h))) resource).

(** [SetDefaultSyntaxDialect.run]: the effects in order, and how the call
    ends. *)
Definition run (h : Host) (syntax_file dialect_file : str) : list effect * result unit :=
  match syntax_from_path h syntax_file with
  | None => ([Print (msg_no_target syntax_file)], Ok tt)
  | Some default_syntax =>
      match syntax_from_path h dialect_file with
      | None => ([Print (msg_no_syntax dialect_file)], Ok tt)
      | Some dialect_syntax =>
          match load_resource h (path default_syntax) with
          | None => ([], Raise FileNotFoundError)
          | Some old_content =>
              match new_content_of h (path dialect_syntax) old_content with
              | Raise e => ([], Raise e)
              | Ok new_content =>
                  if str_eqb old_content new_content then ([], Ok tt)
                  else
                    let file := target_file h (path default_syntax) in
                    if can_open_w h file
                    then ([OpenWrite file (lit "utf-8") [chr_nl] new_content], Ok tt)
                    else ([], Raise OSError)
              end
          end
      end
  end.

(** ** Vocabulary of the statements *)

(** The length of the longest prefix of [s] whose characters satisfy [p]. *)
Fixpoint span_len (p : char -> bool) (s : str) : nat :=
  match s with
  | c :: s' => if p c then S (span_len p s') else 0
  | [] => 0
  end.

(** [s] without the prefix [pre], when it starts with it. *)
Fixpoint strip_prefix (pre s : str) : option str :=
  match pre, s with
  | [], _ => Some s
  | x :: pre', c :: s' => if N.eqb c x then strip_prefix pre' s' else None
  | _ :: _, [] => None
  end.

(** Whether the position after reading [s] is at the beginning of a line,
    [b] being the answer before [s]. *)
Definition last_nl (b : bool) (s : str) : bool :=
  fold_left (fun _ c => is_nl c) s b.

Definition nonspace (c : char) : bool := negb (isspace c).

(** What follows [extends:] in a match, computed without backtracking: the
    length of the white space with the optional dash marker, and the length
    of the token. *)
Definition scan_tail (s : str) : option (nat * nat) :=
  let n1 := span_len isspace s in
  let s2 := skipn n1 s in
  let plain :=
    let t := span_len nonspace s2 in
    if Nat.eqb t 0 then None else Some (n1, t) in
  if Nat.eqb n1 0 then None
  else
    match s2 with
    | c :: s3 =>
        if N.eqb c chr_dash then
          let n2 := span_len isspace s3 in
          let t := span_len nonspace (skipn n2 s3) in
          if Nat.eqb n2 0 || Nat.eqb t 0 then plain else Some (n1 + 1 + n2, t)
        else plain
    | [] => plain
    end.

(** The match of either pattern at one position: the length of the
    directive (up to the token) and the length of the token. *)
Definition scan (bol : bool) (s : str) : option (nat * nat) :=
  if bol then
    match strip_prefix kw_extends s with
    | Some s1 =>
        match scan_tail s1 with
        | Some (dl, tl) => Some (List.length kw_extends + dl, tl)
        | None => None
        end
    | None => None
    end
  else None.

(** White space: a non-empty run of [\s] characters. *)
Definition blank (w : str) : Prop := w <> [] /\ Forall (fun c => isspace c = true) w.

(** The text of a directive up to its token: [extends:], white space, and
    possibly a dash with white space after it. *)
Inductive directive : str -> Prop :=
| directive_plain w : blank w -> directive (kw_extends ++ w)
| directive_dash w1 w2 :
    blank w1 -> blank w2 -> directive (kw_extends ++ w1 ++ [chr_dash] ++ w2).

(** A token: a non-empty run of [\S] characters. *)
Definition token (t : str) : Prop := t <> [] /\ Forall (fun c => isspace c = false) t.

(** [rest] does not continue a token. *)
Definition token_ends (rest : str) : Prop :=
  match rest with
  | [] => True
  | c :: _ => isspace c = true
  end.

(** A dash that the patterns read as the list marker and not as the token:
    white space and a token come after it. *)
Definition reads_as_marker (tok rest : str) : Prop :=
  tok = [chr_dash] /\ exists w t r, blank w /\ token t /\ rest = w ++ t ++ r.

(** A directive, its token and what follows, as the patterns divide a line:
    the directive takes the dash marker whenever there is one, and the token
    goes as far as the white space or the end of the text. *)
Inductive directive_line : str -> str -> str -> Prop :=
| line_plain w tok rest :
    blank w -> token tok -> token_ends rest -> ~ reads_as_marker tok rest ->
    directive_line (kw_extends ++ w) tok rest
| line_dash w1 w2 tok rest :
    blank w1 -> blank w2 -> token tok -> token_ends rest ->
    directive_line (kw_extends ++ w1 ++ [chr_dash] ++ w2) tok rest.

(** [new] is [old] with nothing changed but tokens: a step either copies
    one character, or stands at a match of the pattern of [run], keeps what
    group 1 of the match holds (the directive, with its dash marker when the
    pattern reads one) and puts some text in place of the rest of the
    match, the token.  [b] tells whether the texts start at the beginning
    of a line. *)
Inductive only_tokens_changed : bool -> str -> str -> Prop :=
| otc_end b : only_tokens_changed b [] []
| otc_copy b c old new :
    only_tokens_changed (is_nl c) old new ->
    only_tokens_changed b (c :: old) (c :: new)
| otc_token b d tok tok' old new :
    match_here run_pattern b (d ++ tok ++ old) =
      Some (List.length d + List.length tok, Some (0, List.length d)) ->
    only_tokens_changed false old new ->
    only_tokens_changed b (d ++ tok ++ old) (d ++ tok' ++ new).

(** The number of lines of [s] that begin with [extends:]. *)
Fixpoint count_extends (bol : bool) (s : str) : nat :=
  match s with
  | [] => 0
  | c :: s' =>
      (if bol && startswith s kw_extends then 1 else 0) + count_extends (is_nl c) s'
  end.

(** A path that is plain text as a replacement template after [\1]: no
    backslash, and no digit to lengthen the group number. *)
Definition template_plain (p : str) : Prop :=
  ~ In chr_backslash p /\ (forall c r, p = c :: r -> is_digit c = false).

(** Sublime Text names every resource by a path below [Packages/]. *)
Definition resource_path (p : str) : Prop := startswith p (lit "Packages/") = true.

(** The candidate marked as selected in the list. *)
Definition marked (it : ListInputItem) : Prop := kind it = selected_kind.

(** The host after the file behind resource [res] was rewritten: loading
    [res] gives the new text. *)
Definition reloaded (h : Host) (res new_text : str) : Host :=
  mkHost (list_syntaxes h) (syntax_from_path h)
    (fun p => if str_eqb p res then Some new_text else load_resource h p)
    (packages_path h) (can_open_w h) (py_isidentifier h) (py_int h).

(** The text [run] writes, if it writes. *)
Definition written (out : list effect * result unit) : option str :=
  match fst out with
  | [OpenWrite _ _ nl data] => Some (written_text nl data)
  | _ => None
  end.

(** The end of both patterns as a continuation: [\S+] and nothing after
    it; [cap] gives the span of group 1 from the offsets of the token. *)
Definition token_k (cap : nat -> nat -> caps)
    : bool -> nat -> str -> caps -> option (nat * caps) :=
  fun _ p s _ => rep1 (in_cls NonSpace) p s (fun _ p2 _ => Some (p2, cap p p2)).

(** The test of the loop of [list_items], and the item it appends. *)
Definition keep_syntax (default_syntax : Syntax) (default_scope : str) (s : Syntax) : bool :=
  negb (hidden s) && negb (syntax_eqb s default_syntax)
  && startswith (scope s) default_scope.

Definition item_for (selected_syntax : option Syntax) (s : Syntax) : ListInputItem :=
  mkItem (name s) (path s)
    (if is_selected s selected_syntax then selected_kind else KIND_AMBIGUOUS).

(** ** A small installation, for the examples

    The SQL package of the plugin's documentation: the umbrella syntax
    [SQL] and its dialects, one of them hidden, one with a space in its file
    name, and an unrelated syntax. *)

Definition sql_path : str := lit "Packages/SQL/SQL.sublime-syntax".
Definition mysql_path : str := lit "Packages/SQL/MySQL.sublime-syntax".
Definition pg_path : str := lit "Packages/SQL/PostgreSQL.sublime-syntax".
Definition tsql_path : str := lit "Packages/SQL/SQL (TSQL).sublime-syntax".
Definition basic_path : str := lit "Packages/SQL/SQL (basic).sublime-syntax".
Definition python_path : str := lit "Packages/Python/Python.sublime-syntax".

Definition sql_syntax : Syntax := mkSyntax sql_path (lit "SQL") false (lit "source.sql").
Definition mysql_syntax : Syntax :=
  mkSyntax mysql_path (lit "MySQL") false (lit "source.sql.mysql").
Definition pg_syntax : Syntax :=
  mkSyntax pg_path (lit "PostgreSQL") false (lit "source.sql.postgresql").
Definition tsql_syntax : Syntax :=
  mkSyntax tsql_path (lit "TSQL") false (lit "source.sql.tsql").
Definition basic_syntax : Syntax :=
  mkSyntax basic_path (lit "SQL (basic)") true (lit "source.sql.basic").
Definition python_syntax : Syntax :=
  mkSyntax python_path (lit "Python") false (lit "source.python").

Definition registry : list Syntax :=
  [sql_syntax; mysql_syntax; pg_syntax; tsql_syntax; basic_syntax; python_syntax].

Definition lookup (l : list Syntax) (p : str) : option Syntax :=
  find (fun s => str_eqb (path s) p) l.

(** The umbrella file, with its [extends:] line naming [target]. *)
Definition sql_text (target : str) : str :=
  lit "%YAML 1.2" ++ [chr_nl] ++ lit "---" ++ [chr_nl]
  ++ lit "name: SQL" ++ [chr_nl] ++ lit "scope: source.sql" ++ [chr_nl]
  ++ lit "version: 2" ++ [chr_nl] ++ [chr_nl]
  ++ lit "extends: " ++ target ++ [chr_nl] ++ [chr_nl]
  ++ lit "file_extensions:" ++ [chr_nl] ++ lit "  - sql" ++ [chr_nl].

(** The lines of that file before the [extends:] line, and what follows
    the path on it. *)
Definition sql_head : str :=
  lit "%YAML 1.2" ++ [chr_nl] ++ lit "---" ++ [chr_nl]
  ++ lit "name: SQL" ++ [chr_nl] ++ lit "scope: source.sql" ++ [chr_nl]
  ++ lit "version: 2" ++ [chr_nl] ++ [chr_nl].

Definition sql_tail : str :=
  [chr_nl] ++ [chr_nl]
  ++ lit "file_extensions:" ++ [chr_nl] ++ lit "  - sql" ++ [chr_nl].

(** The same file without an [extends:] line. *)
Definition plain_text : str :=
  lit "%YAML 1.2" ++ [chr_nl] ++ lit "---" ++ [chr_nl]
  ++ lit "name: SQL" ++ [chr_nl] ++ lit "scope: source.sql" ++ [chr_nl].

Definition demo_packages : str := lit "/home/user/.config/sublime-text/Packages".

(** An installation with [registry] in which the umbrella file holds
    [content].  No template of the examples has a [\g<name>] reference, so
    the two built-ins are never asked. *)
Definition demo_host (l : list Syntax) (content : str) : Host :=
  mkHost l (lookup l)
    (fun p => if str_eqb p sql_path then Some content else None)
    demo_packages (fun _ => true) (fun _ => false) (fun _ => None).

Definition demo_file : str :=
  lit "/home/user/.config/sublime-text/Packages/SQL/SQL.sublime-syntax".

(** An umbrella whose scope has one level only. *)
Definition flat_syntax : Syntax := mkSyntax sql_path (lit "SQL") false (lit "sql").

(** ** The statements of the specification that the code does not meet *)


(** ** The rest of the command: the input handler and [input] *)

(** [DialectFileInputHandler]: the object keeps the default syntax. *)
Record DialectFileInputHandler := mkHandler { default_syntax : Syntax }.

(** [DialectFileInputHandler.name] *)
Definition handler_name (_ : DialectFileInputHandler) : str := lit "dialect_file".

(** [DialectFileInputHandler.placeholder] *)
Definition handler_placeholder (_ : DialectFileInputHandler) : str :=
  lit "Choose the dialect to use as default syntax.".

(** [DialectFileInputHandler.list_items], as a method of the object. *)
Definition handler_list_items (h : Host) (hd : DialectFileInputHandler)
    : result (list ListInputItem) :=
  list_items h (default_syntax hd).

(** [SetDefaultSyntaxDialect.input_description] *)
Definition input_description : str := lit "Syntax:".

(** A [Dict[str, str]]: the pairs of keys and values; [args.get(key)]. *)
Definition dict_get (args : list (str * str)) (key : str) : option str :=
  match find (fun kv => str_eqb (fst kv) key) args with
  | Some kv => Some (snd kv)
  | None => None
  end.

(** [not x] for what [args.get] returns: [None] and the empty string are
    false. *)
Definition is_falsy (x : option str) : bool :=
  match x with
  | None => true
  | Some [] => true
  | Some (_ :: _) => false
  end.

(** [SetDefaultSyntaxDialect.input].  [resolve_none] is what
    [sublime.syntax_from_path(None)] does, for arguments without a
    [syntax_file]. *)
Definition input (h : Host) (resolve_none : result (option Syntax))
    (args : list (str * str)) : result (option DialectFileInputHandler) :=
  if is_falsy (dict_get args (lit "dialect_file")) then
    match
      match dict_get args (lit "syntax_file") with
      | Some p => Ok (syntax_from_path h p)
      | None => resolve_none
      end
    with
    | Raise e => Raise e
    | Ok (Some default_syntax) => Ok (Some (mkHandler default_syntax))
    | Ok None => Ok None
    end
  else Ok None.

(** ** More vocabulary *)

(** The registry and the resolver agree: a registered syntax is what its
    path resolves to. *)
Definition coherent (h : Host) : Prop :=
  forall s, In s (list_syntaxes h) -> syntax_from_path h (path s) = Some s.

(** A path component as [pathlib] keeps it: not empty, not a dot, without a
    slash. *)
Definition plain_part (x : str) : Prop :=
  x <> [] /\ x <> [chr_dot] /\ ~ In chr_slash x.

(** The number of times [c] occurs in [s]. *)
Definition occurrences (c : char) (s : str) : nat :=
  List.length (filter (N.eqb c) s).

(** The enumerator's match, from the patcher's match: the same span, with
    the group on the token instead of the directive. *)
Definition as_list_match (m : Match) : Match :=
  mkMatch (m_start m) (m_end m)
    (match m_caps m with
     | Some (_, dl) => Some (dl, m_end m - m_start m)
     | None => None
     end).

(** The token of the patcher's match: what follows group 1. *)
Definition matched_token (s : str) (m : Match) : str :=
  match m_caps m with
  | Some (_, dl) => substr (m_start m + dl) (m_end m) s
  | None => []
  end.
(** * Proofs *)

(** ** Strings and prefixes *)

Lemma str_eqb_eq (a b : str) : str_eqb a b = true <-> a = b.
Proof.
  revert b; induction a as [|x a IH]; intros [|y b]; simpl; split; intro H;
    try reflexivity; try discriminate.
  - apply andb_true_iff in H as [Hx Hr].
    apply N.eqb_eq in Hx. apply IH in Hr. congruence.
  - injection H as -> ->. rewrite N.eqb_refl. simpl. now apply IH.
Qed.

Lemma str_eqb_refl (a : str) : str_eqb a a = true.
Proof. now apply str_eqb_eq. Qed.

Lemma str_eqb_neq (a b : str) : str_eqb a b = false <-> a <> b.
Proof.
  split.
  - intros H E. apply str_eqb_eq in E. congruence.
  - intro H. destruct (str_eqb a b) eqn:E; [|reflexivity].
    apply str_eqb_eq in E. contradiction.
Qed.

Lemma startswith_app (a b : str) : startswith a b = true <-> exists r, a = b ++ r.
Proof.
  revert a; induction b as [|y b IH]; intros a; simpl.
  - split; [intros _; now exists a | intros _; now destruct a].
  - destruct a as [|x a]; simpl.
    + split; [discriminate | intros [r H]; discriminate].
    + split.
      * intro H. apply andb_true_iff in H as [Hx Hr].
        apply N.eqb_eq in Hx. apply IH in Hr as [r ->]. exists r. now subst.
      * intros [r H]. injection H as -> ->. rewrite N.eqb_refl. simpl.
        apply IH. now exists r.
Qed.

Lemma strip_prefix_app (pre s r : str) : strip_prefix pre s = Some r <-> s = pre ++ r.
Proof.
  revert s; induction pre as [|x pre IH]; intros s; simpl.
  - split; congruence.
  - destruct s as [|c s].
    + split; discriminate.
    + destruct (N.eqb c x) eqn:E.
      * apply N.eqb_eq in E. subst c. rewrite IH. split; congruence.
      * apply N.eqb_neq in E. split; [discriminate | congruence].
Qed.

Lemma strip_prefix_startswith (pre s : str) :
  startswith s pre = true <-> exists r, strip_prefix pre s = Some r.
Proof.
  rewrite startswith_app. split; intros [r H]; exists r; now apply strip_prefix_app.
Qed.

Lemma last_nl_app (b : bool) (x y : str) : last_nl b (x ++ y) = last_nl (last_nl b x) y.
Proof. unfold last_nl. now rewrite fold_left_app. Qed.

Lemma last_nl_cons (b : bool) (c : char) (x : str) : last_nl b (c :: x) = last_nl (is_nl c) x.
Proof. reflexivity. Qed.

Lemma isspace_nl (c : char) : is_nl c = true -> isspace c = true.
Proof. unfold is_nl. intro H. apply N.eqb_eq in H. now subst. Qed.

Lemma last_nl_token (b : bool) (t : str) : token t -> last_nl b t = false.
Proof.
  intros [Hne Hall]. revert b. induction t as [|c t IH]; [contradiction|].
  intro b. rewrite last_nl_cons. inversion Hall as [|? ? Hc Ht]; subst.
  destruct t as [|c' t'].
  - simpl. destruct (is_nl c) eqn:E; [|reflexivity].
    apply isspace_nl in E. congruence.
  - apply IH; [discriminate | assumption].
Qed.

(** ** Longest prefixes *)

Lemma span_len_le p (s : str) : span_len p s <= List.length s.
Proof. induction s as [|c s IH]; simpl; [lia|]. destruct (p c); simpl; lia. Qed.

Lemma span_len_prefix p (s : str) :
  Forall (fun c => p c = true) (firstn (span_len p s) s).
Proof.
  induction s as [|c s IH]; simpl; [constructor|].
  destruct (p c) eqn:E; simpl; [|constructor].
  now constructor.
Qed.

Lemma span_len_stop p (s : str) :
  match skipn (span_len p s) s with
  | [] => True
  | c :: _ => p c = false
  end.
Proof.
  induction s as [|c s IH]; simpl; [exact I|].
  destruct (p c) eqn:E; simpl; assumption.
Qed.

Lemma span_len_app p (w r : str) :
  Forall (fun c => p c = true) w ->
  span_len p (w ++ r) = List.length w + span_len p r.
Proof.
  induction 1 as [|c w Hc _ IH]; simpl; [reflexivity|].
  now rewrite Hc, IH.
Qed.

(** ** The greedy repetition *)

(** When the rest of the pattern cannot start on a character of the class,
    giving characters back is of no use: the repetition takes the longest
    run or fails. *)
Lemma rep1_blocked p pos (s : str) k :
  (forall b b' n t, k b n t = k b' n t) ->
  (forall b n c t, p c = true -> k b n (c :: t) = None) ->
  rep1 p pos s k =
    if Nat.eqb (span_len p s) 0 then None
    else k false (pos + span_len p s) (skipn (span_len p s) s).
Proof.
  intros Hb Hk. revert pos. induction s as [|c s IH]; intro pos; [reflexivity|].
  cbn [rep1 span_len]. destruct (p c) eqn:Hc; [|reflexivity].
  rewrite IH. cbn [Nat.eqb skipn].
  replace (pos + S (span_len p s)) with (S pos + span_len p s) by lia.
  destruct (span_len p s) as [|n] eqn:Hn.
  - cbn [Nat.eqb skipn]. rewrite Nat.add_0_r. apply Hb.
  - cbn [Nat.eqb].
    destruct (k false (S pos + S n) (skipn (S n) s)) eqn:Hr; [reflexivity|].
    destruct s as [|c' s']; [discriminate|].
    cbn [span_len] in Hn. destruct (p c') eqn:Hc'; [|discriminate].
    now apply Hk.
Qed.

(** When the rest of the pattern always succeeds, the first try, with the
    longest run, is the answer. *)
Lemma rep1_final p pos (s : str) (f : nat -> nat * caps) :
  rep1 p pos s (fun _ n _ => Some (f n)) =
    if Nat.eqb (span_len p s) 0 then None else Some (f (pos + span_len p s)).
Proof.
  revert pos. induction s as [|c s IH]; intro pos; [reflexivity|].
  cbn [rep1 span_len]. destruct (p c) eqn:Hc; [|reflexivity].
  rewrite IH. cbn [Nat.eqb].
  replace (pos + S (span_len p s)) with (S pos + span_len p s) by lia.
  destruct (span_len p s) as [|n]; cbn [Nat.eqb]; [|reflexivity].
  now rewrite Nat.add_0_r.
Qed.

(** ** What the two patterns match *)

Lemma mtch_lits cs r bol pos (s : str) g k :
  mtch (lits cs r) bol pos s g k =
    match strip_prefix cs s with
    | Some s' => mtch r (last_nl bol cs) (pos + List.length cs) s' g k
    | None => None
    end.
Proof.
  revert bol pos s. induction cs as [|x cs IH]; intros bol pos s.
  - cbn [lits strip_prefix List.length last_nl fold_left]. now rewrite Nat.add_0_r.
  - cbn [lits mtch strip_prefix]. destruct s as [|c s]; [reflexivity|].
    destruct (N.eqb c x) eqn:E; [|reflexivity].
    apply N.eqb_eq in E. subst c. rewrite IH. rewrite last_nl_cons.
    cbn [List.length]. now replace (S pos + List.length cs) with (pos + S (List.length cs)) by lia.
Qed.

Lemma token_k_eq cap b p (s : str) g :
  token_k cap b p s g =
    if Nat.eqb (span_len nonspace s) 0 then None
    else Some (p + span_len nonspace s, cap p (p + span_len nonspace s)).
Proof.
  unfold token_k. change (in_cls NonSpace) with nonspace.
  exact (rep1_final nonspace p s (fun n => (n, cap p n))).
Qed.

Lemma token_k_space cap b p c (s : str) g :
  isspace c = true -> token_k cap b p (c :: s) g = None.
Proof.
  intro H. rewrite token_k_eq. cbn [span_len]. unfold nonspace. now rewrite H.
Qed.

Lemma dash_not_space : isspace chr_dash = false.
Proof. reflexivity. Qed.

(** [(?:-\s+)?] before the token. *)
Lemma mtch_opt_dash cap b p (s : str) g :
  mtch (Opt (Cat (Chr chr_dash) (Plus Space))) b p s g (token_k cap) =
    match s with
    | c :: s3 =>
        if N.eqb c chr_dash then
          let n2 := span_len isspace s3 in
          let t := span_len nonspace (skipn n2 s3) in
          if Nat.eqb n2 0 || Nat.eqb t 0 then token_k cap b p s g
          else Some (S p + n2 + t, cap (S p + n2) (S p + n2 + t))
        else token_k cap b p s g
    | [] => token_k cap b p s g
    end.
Proof.
  cbn [mtch]. destruct s as [|c s3]; [reflexivity|].
  destruct (N.eqb c chr_dash) eqn:E; [|reflexivity].
  change (in_cls Space) with isspace.
  rewrite rep1_blocked.
  - cbv zeta. destruct (Nat.eqb (span_len isspace s3) 0) eqn:E2; cbn [orb]; [reflexivity|].
    rewrite token_k_eq.
    destruct (Nat.eqb (span_len nonspace (skipn (span_len isspace s3) s3)) 0);
      reflexivity.
  - intros. now rewrite !token_k_eq.
  - intros. now apply token_k_space.
Qed.

Lemma mtch_cat r1 r2 b p (s : str) g k :
  mtch (Cat r1 r2) b p s g k = mtch r1 b p s g (fun b' p' s' g' => mtch r2 b' p' s' g' k).
Proof. reflexivity. Qed.

Lemma mtch_plus cl b p (s : str) g k :
  mtch (Plus cl) b p s g k = rep1 (in_cls cl) p s (fun b' p' s' => k b' p' s' g).
Proof. reflexivity. Qed.

Lemma mtch_tail cap b pos (s : str) g :
  mtch (Cat (Plus Space) (Opt (Cat (Chr chr_dash) (Plus Space)))) b pos s g (token_k cap) =
    match scan_tail s with
    | Some (dl, tl) => Some (pos + dl + tl, cap (pos + dl) (pos + dl + tl))
    | None => None
    end.
Proof.
  rewrite mtch_cat, mtch_plus. change (in_cls Space) with isspace.
  rewrite rep1_blocked; cbv beta.
  - unfold scan_tail. cbv zeta.
    destruct (Nat.eqb (span_len isspace s) 0) eqn:E1; [reflexivity|].
    rewrite mtch_opt_dash. cbv zeta. rewrite token_k_eq.
    destruct (skipn (span_len isspace s) s) as [|c s3] eqn:E2.
    + destruct (Nat.eqb (span_len nonspace []) 0); reflexivity.
    + destruct (N.eqb c chr_dash).
      * destruct (Nat.eqb (span_len isspace s3) 0
                  || Nat.eqb (span_len nonspace (skipn (span_len isspace s3) s3)) 0).
        -- destruct (Nat.eqb (span_len nonspace (c :: s3)) 0); reflexivity.
        -- replace (pos + (span_len isspace s + 1 + span_len isspace s3))
             with (S (pos + span_len isspace s) + span_len isspace s3) by lia.
           reflexivity.
      * destruct (Nat.eqb (span_len nonspace (c :: s3)) 0); reflexivity.
  - intros. now rewrite !mtch_opt_dash, !token_k_eq.
  - intros b0 n c t H. rewrite mtch_opt_dash.
    destruct (N.eqb c chr_dash) eqn:E.
    + apply N.eqb_eq in E. subst c. rewrite dash_not_space in H. discriminate.
    + now apply token_k_space.
Qed.

Lemma kw_length : List.length kw_extends = 8.
Proof. reflexivity. Qed.

(** Both patterns, at one position, do what [scan] computes. *)
Lemma match_here_run bol (s : str) :
  match_here run_pattern bol s =
    match scan bol s with
    | Some (dl, tl) => Some (dl + tl, Some (0, dl))
    | None => None
    end.
Proof.
  unfold match_here, run_pattern, directive_re, scan. cbn [mtch].
  destruct bol; [|reflexivity].
  rewrite mtch_lits. destruct (strip_prefix kw_extends s) as [s1|]; [|reflexivity].
  change (fun (b : bool) (p : nat) (s' : str) (_ : caps) =>
            rep1 (in_cls NonSpace) p s' (fun (b0 : bool) (p0 : nat) (s'0 : str) =>
               Some (p0, Some (0, p))))
    with (token_k (fun p _ => Some (0, p))).
  rewrite mtch_tail. cbn [Nat.add].
  destruct (scan_tail s1) as [[dl tl]|]; reflexivity.
Qed.

Lemma match_here_list bol (s : str) :
  match_here list_pattern bol s =
    match scan bol s with
    | Some (dl, tl) => Some (dl + tl, Some (dl, dl + tl))
    | None => None
    end.
Proof.
  unfold match_here, list_pattern, directive_re, scan. cbn [mtch].
  destruct bol; [|reflexivity].
  rewrite mtch_lits. destruct (strip_prefix kw_extends s) as [s1|]; [|reflexivity].
  change (fun (b : bool) (p : nat) (s' : str) (_ : caps) =>
            rep1 (in_cls NonSpace) p s' (fun (b0 : bool) (p0 : nat) (s'0 : str) =>
               Some (p0, Some (p, p0))))
    with (token_k (fun p p2 => Some (p, p2))).
  rewrite mtch_tail. cbn [Nat.add].
  destruct (scan_tail s1) as [[dl tl]|]; reflexivity.
Qed.

(** ** From lengths to pieces of text *)

Lemma span_split p (s : str) :
  exists w r, s = w ++ r /\ List.length w = span_len p s
              /\ Forall (fun c => p c = true) w
              /\ match r with [] => True | c :: _ => p c = false end.
Proof.
  exists (firstn (span_len p s) s), (skipn (span_len p s) s).
  split; [now rewrite firstn_skipn|]. split.
  - apply firstn_length_le, span_len_le.
  - split; [apply span_len_prefix | apply span_len_stop].
Qed.

Lemma skipn_exact (w r : str) n : List.length w = n -> skipn n (w ++ r) = r.
Proof. intros <-. now rewrite skipn_app, skipn_all, Nat.sub_diag. Qed.

Lemma firstn_exact (w r : str) n : List.length w = n -> firstn n (w ++ r) = w.
Proof. intros <-. now rewrite firstn_app, firstn_all, Nat.sub_diag, app_nil_r. Qed.

Lemma blank_of_span (w : str) n :
  List.length w = n -> Nat.eqb n 0 = false ->
  Forall (fun c => isspace c = true) w -> blank w.
Proof.
  intros Hl Hn Hw. split; [|assumption].
  intros ->. simpl in Hl. subst n. discriminate.
Qed.

Lemma token_of_span (t : str) n :
  List.length t = n -> Nat.eqb n 0 = false ->
  Forall (fun c => nonspace c = true) t -> token t.
Proof.
  intros Hl Hn Ht. split.
  - intros ->. simpl in Hl. subst n. discriminate.
  - eapply Forall_impl; [|exact Ht]. intros c Hc. unfold nonspace in Hc.
    now apply negb_true_iff in Hc.
Qed.

Lemma token_ends_of_span (r : str) :
  match r with [] => True | c :: _ => nonspace c = false end -> token_ends r.
Proof.
  destruct r as [|c r]; [trivial|]. unfold nonspace, token_ends.
  intro H. now apply negb_false_iff in H.
Qed.

(** The token of a plain directive. *)
Lemma plain_sound (w1 s2 : str) n1 tl :
  List.length w1 = n1 -> Nat.eqb n1 0 = false ->
  Forall (fun c => isspace c = true) w1 ->
  (if Nat.eqb (span_len nonspace s2) 0 then None else Some (n1, span_len nonspace s2))
    = Some (n1, tl) ->
  exists tok rest,
    s2 = tok ++ rest /\ List.length tok = tl /\ directive (kw_extends ++ w1)
    /\ token tok /\ token_ends rest.
Proof.
  intros Hl Hn Hw H.
  destruct (Nat.eqb (span_len nonspace s2) 0) eqn:Et; [discriminate|].
  injection H as <-.
  destruct (span_split nonspace s2) as (tok & rest & -> & Hlt & Ht & Hr).
  exists tok, rest. split; [reflexivity|]. split; [assumption|]. split.
  - constructor. eapply blank_of_span; eassumption.
  - split; [eapply token_of_span; eassumption | now apply token_ends_of_span].
Qed.

Lemma scan_tail_sound (s : str) dl tl :
  scan_tail s = Some (dl, tl) ->
  exists d tok rest,
    s = d ++ tok ++ rest /\ List.length d = dl /\ List.length tok = tl
    /\ directive (kw_extends ++ d) /\ token tok /\ token_ends rest.
Proof.
  unfold scan_tail. cbv zeta.
  destruct (Nat.eqb (span_len isspace s) 0) eqn:E1; [discriminate|].
  destruct (span_split isspace s) as (w1 & s2 & Hs & Hl1 & Hw1 & Hstop).
  assert (Hsk : skipn (span_len isspace s) s = s2).
  { rewrite <- Hl1, Hs. now apply skipn_exact. }
  rewrite Hsk.
  assert (Hplain : forall dl tl,
    (if Nat.eqb (span_len nonspace s2) 0 then None
     else Some (span_len isspace s, span_len nonspace s2)) = Some (dl, tl) ->
    exists d tok rest,
      s = d ++ tok ++ rest /\ List.length d = dl /\ List.length tok = tl
      /\ directive (kw_extends ++ d) /\ token tok /\ token_ends rest).
  { intros dl' tl' H.
    destruct (Nat.eqb (span_len nonspace s2) 0) eqn:Et; [discriminate|].
    injection H as <- <-.
    assert (Hp : (if Nat.eqb (span_len nonspace s2) 0 then None
                  else Some (span_len isspace s, span_len nonspace s2))
                 = Some (span_len isspace s, span_len nonspace s2)).
    { now rewrite Et. }
    destruct (plain_sound s2 Hl1 E1 Hw1 Hp)
      as (tok & rest & Hs2 & Hlt & Hd & Ht & Hr).
    rewrite Hs2 in Hs.
    exists w1, tok, rest. repeat split; try assumption; apply Ht || apply Hd. }
  destruct s2 as [|c s3]; [apply Hplain|].
  destruct (N.eqb c chr_dash) eqn:Ec; [|apply Hplain].
  destruct (Nat.eqb (span_len isspace s3) 0) eqn:E2; cbn [orb]; [apply Hplain|].
  destruct (Nat.eqb (span_len nonspace (skipn (span_len isspace s3) s3)) 0) eqn:E3;
    [apply Hplain|].
  intro H. injection H as <- <-.
  apply N.eqb_eq in Ec. subst c.
  destruct (span_split isspace s3) as (w2 & s4 & Hs3 & Hl2 & Hw2 & _).
  assert (Hsk3 : skipn (span_len isspace s3) s3 = s4).
  { rewrite <- Hl2, Hs3. now apply skipn_exact. }
  rewrite Hsk3 in *.
  destruct (span_split nonspace s4) as (tok & rest & Hs4 & Hlt & Ht & Hr).
  exists (w1 ++ [chr_dash] ++ w2), tok, rest.
  split.
  { rewrite Hs, Hs3, Hs4. now rewrite <- !app_assoc. }
  split.
  { rewrite !length_app. cbn [List.length]. lia. }
  split.
  { exact Hlt. }
  split.
  { apply directive_dash; eapply blank_of_span; eassumption. }
  split; [eapply token_of_span; eassumption | now apply token_ends_of_span].
Qed.

Lemma scan_sound bol (s : str) dl tl :
  scan bol s = Some (dl, tl) ->
  bol = true /\
  exists d tok rest,
    s = d ++ tok ++ rest /\ List.length d = dl /\ List.length tok = tl
    /\ directive d /\ token tok /\ token_ends rest.
Proof.
  unfold scan. destruct bol; [|discriminate].
  destruct (strip_prefix kw_extends s) as [s1|] eqn:Es; [|discriminate].
  apply strip_prefix_app in Es.
  destruct (scan_tail s1) as [[dl1 tl1]|] eqn:Et; [|discriminate].
  intro H. injection H as <- <-. split; [reflexivity|].
  apply scan_tail_sound in Et as (d & tok & rest & -> & Hd & Ht & Hdir & Htok & Hr).
  exists (kw_extends ++ d), tok, rest.
  split; [now rewrite <- app_assoc|]. split.
  { rewrite length_app, kw_length. lia. }
  repeat split; try assumption; apply Htok.
Qed.

Lemma directive_kw (d : str) : directive d -> startswith d kw_extends = true.
Proof.
  intro H. apply startswith_app. destruct H; eexists; reflexivity.
Qed.

Lemma directive_cons (d : str) : directive d -> exists c d', d = c :: d'.
Proof. intro H. destruct H; eexists; eexists; reflexivity. Qed.

Lemma scan_starts bol (s : str) dl tl :
  scan bol s = Some (dl, tl) -> bol = true /\ startswith s kw_extends = true.
Proof.
  intro H. apply scan_sound in H as (Hb & d & tok & rest & -> & _ & _ & Hd & _).
  split; [assumption|]. apply directive_kw in Hd. apply startswith_app in Hd as [r ->].
  apply startswith_app. eexists. now rewrite <- app_assoc.
Qed.

(** ** The substitution loop *)

Lemma sub_loop_unfold r tpl bol (s : str) :
  sub_loop r tpl bol 0 s =
    match match_here r bol s with
    | Some (e, g) =>
        let rep := expand tpl (firstn e s) g in
        match s with
        | [] => (rep, 1)
        | c :: s' =>
            match e with
            | S n =>
                let (out, cnt) := sub_loop r tpl (is_nl c) n s' in
                (rep ++ out, S cnt)
            | O =>
                let (out, cnt) := sub_loop r tpl (is_nl c) 0 s' in
                (rep ++ c :: out, S cnt)
            end
        end
    | None =>
        match s with
        | [] => ([], 0)
        | c :: s' =>
            let (out, cnt) := sub_loop r tpl (is_nl c) 0 s' in
            (c :: out, cnt)
        end
    end.
Proof. destruct s; reflexivity. Qed.

Lemma sub_loop_skip r tpl (pre rest : str) bol :
  sub_loop r tpl bol (List.length pre) (pre ++ rest) =
  sub_loop r tpl (last_nl bol pre) 0 rest.
Proof.
  revert bol. induction pre as [|c pre IH]; intro bol; [reflexivity|].
  cbn [List.length app sub_loop]. rewrite IH. now rewrite last_nl_cons.
Qed.

(** A match of [run_pattern] is replaced by the expansion, and the loop goes
    on after the token. *)
Lemma sub_loop_hit tpl bol (d tok rest : str) :
  scan bol (d ++ tok ++ rest) = Some (List.length d, List.length tok) ->
  directive d -> token tok ->
  sub_loop run_pattern tpl bol 0 (d ++ tok ++ rest) =
    (expand tpl (d ++ tok) (Some (0, List.length d))
       ++ fst (sub_loop run_pattern tpl false 0 rest),
     S (snd (sub_loop run_pattern tpl false 0 rest))).
Proof.
  intros Hscan Hd Ht.
  rewrite sub_loop_unfold, match_here_run, Hscan. cbv zeta.
  replace (firstn (List.length d + List.length tok) (d ++ tok ++ rest)) with (d ++ tok)
    by (rewrite app_assoc; symmetry; apply firstn_exact; now rewrite length_app).
  destruct (directive_cons Hd) as (c & d' & ->).
  cbn [app List.length Nat.add].
  replace (List.length d' + List.length tok) with (List.length (d' ++ tok))
    by now rewrite length_app.
  rewrite app_assoc, sub_loop_skip, last_nl_app, (last_nl_token _ Ht).
  destruct (sub_loop run_pattern tpl false 0 rest) as [out cnt]. reflexivity.
Qed.

Lemma sub_loop_miss tpl bol (s : str) :
  scan bol s = None ->
  sub_loop run_pattern tpl bol 0 s =
    match s with
    | [] => ([], 0)
    | c :: s' =>
        (c :: fst (sub_loop run_pattern tpl (is_nl c) 0 s'),
         snd (sub_loop run_pattern tpl (is_nl c) 0 s'))
    end.
Proof.
  intro H. rewrite sub_loop_unfold, match_here_run, H.
  destruct s as [|c s']; [reflexivity|].
  now destruct (sub_loop run_pattern tpl (is_nl c) 0 s').
Qed.

Lemma expand_group1 tl (d tok : str) :
  expand (TGroup 1 :: tl) (d ++ tok) (Some (0, List.length d)) =
  d ++ expand tl (d ++ tok) (Some (0, List.length d)).
Proof.
  unfold expand. cbn [flat_map expand_item]. unfold substr.
  rewrite Nat.sub_0_r. cbn [skipn]. now rewrite (firstn_exact d tok eq_refl).
Qed.

(** Whatever follows [\1] in the template, the text outside the tokens is
    kept. *)
Lemma sub_loop_frame tl n :
  forall (s : str) bol, List.length s <= n ->
    only_tokens_changed bol s (fst (sub_loop run_pattern (TGroup 1 :: tl) bol 0 s)).
Proof.
  induction n as [|n IH]; intros s bol Hn.
  - destruct s; [|simpl in Hn; lia].
    rewrite sub_loop_unfold, match_here_run.
    assert (E : scan bol [] = None) by (unfold scan; now destruct bol).
    rewrite E. constructor.
  - destruct (scan bol s) as [[dl tl']|] eqn:E.
    + destruct (@scan_sound _ _ _ _ E) as (Hb & d & tok & rest & -> & Hld & Hlt & Hd & Ht & _).
      subst dl tl' bol.
      rewrite (@sub_loop_hit _ _ _ _ _ E Hd Ht). cbn [fst].
      rewrite expand_group1, <- app_assoc.
      apply otc_token; [now rewrite match_here_run, E|].
      apply IH. destruct (directive_cons Hd) as (c & d' & ->).
      rewrite !length_app in Hn. cbn [List.length] in Hn. lia.
    + rewrite (@sub_loop_miss _ _ _ E). destruct s as [|c s']; [constructor|].
      cbn [fst]. apply otc_copy. apply IH. simpl in Hn. lia.
Qed.

(** ** The template of [run] *)

Lemma parse_plain isid pint groups (p : str) :
  ~ In chr_backslash p ->
  parse_template isid pint groups p = Ok (map (fun c => TLit [c]) p).
Proof.
  induction p as [|c p IH]; intro H; [reflexivity|].
  cbn [parse_template map].
  destruct (N.eqb c chr_backslash) eqn:E.
  - apply N.eqb_eq in E. subst c. exfalso. apply H. now left.
  - rewrite IH; [reflexivity|]. intro Hin. apply H. now right.
Qed.

Lemma expand_plain (p whole : str) g :
  expand (map (fun c => TLit [c]) p) whole g = p.
Proof.
  unfold expand. induction p as [|c p IH]; [reflexivity|].
  cbn [map flat_map expand_item app]. now rewrite IH.
Qed.

(** When the path does not begin with a digit, the template is group 1
    followed by what the path parses to. *)
Lemma parse_run_template isid pint (p : str) :
  (forall c r, p = c :: r -> is_digit c = false) ->
  parse_template isid pint 1 (run_template p) =
    match parse_template isid pint 1 p with
    | Ok l => Ok (TGroup 1 :: l)
    | Raise e => Raise e
    end.
Proof.
  intro H. unfold run_template. cbn [app].
  destruct p as [|c r]; [reflexivity|].
  specialize (H c r eq_refl).
  change (parse_template isid pint 1 (chr_backslash :: 49%N :: c :: r))
    with (if is_digit c
          then match r with
               | d2 :: t4 =>
                   if is_octdigit 49%N && is_octdigit c && is_octdigit d2
                   then
                     let v := (digit_val 49 * 64 + digit_val c * 8 + digit_val d2)%N in
                     if (255 <? v)%N then Raise ReError
                     else then_item (TLit [v]) (parse_template isid pint 1 t4)
                   else addgroup 1 (N.to_nat (digit_val 49 * 10 + digit_val c)%N)
                          (parse_template isid pint 1 r)
               | [] => addgroup 1 (N.to_nat (digit_val 49 * 10 + digit_val c)%N)
                         (parse_template isid pint 1 r)
               end
          else addgroup 1 (N.to_nat (digit_val 49%N)) (parse_template isid pint 1 (c :: r))).
  rewrite H. reflexivity.
Qed.

Lemma starts_packages_not_digit (p : str) :
  resource_path p -> forall c r, p = c :: r -> is_digit c = false.
Proof.
  intros H c r ->. apply startswith_app in H as [r' H].
  injection H as -> _. reflexivity.
Qed.

(** ** Texts without a match, texts with one directive *)

Lemma sub_loop_no_match r tpl (s : str) :
  forall bol off, search_from r bol off s = None -> sub_loop r tpl bol 0 s = (s, 0).
Proof.
  induction s as [|c s IH]; intros bol off H; rewrite sub_loop_unfold;
    cbn [search_from] in H;
    destruct (match_here r bol) as [[e g]|]; try discriminate; [reflexivity|].
  now rewrite (IH _ _ H).
Qed.

Lemma scan_nil bol : scan bol [] = None.
Proof. unfold scan. now destruct bol. Qed.

Lemma count_extends_zero bol (s : str) : count_extends bol s = 0 -> scan bol s = None.
Proof.
  intro H. destruct (scan bol s) as [[dl tl]|] eqn:E; [|reflexivity].
  apply scan_starts in E as [-> Hs]. destruct s as [|c s]; [discriminate|].
  cbn [count_extends andb] in H. rewrite Hs in H. discriminate.
Qed.

Lemma count_extends_tail bol c (s : str) :
  count_extends (is_nl c) s <= count_extends bol (c :: s).
Proof. cbn [count_extends]. lia. Qed.

Lemma count_extends_suffix (x y : str) :
  forall b, count_extends (last_nl b x) y <= count_extends b (x ++ y).
Proof.
  induction x as [|c x IH]; intro b; [reflexivity|].
  rewrite last_nl_cons. cbn [app]. etransitivity; [apply IH|apply count_extends_tail].
Qed.

Lemma sub_loop_clean tpl (s : str) :
  forall bol, count_extends bol s = 0 -> sub_loop run_pattern tpl bol 0 s = (s, 0).
Proof.
  induction s as [|c s IH]; intros bol H.
  - now rewrite (@sub_loop_miss _ _ _ (scan_nil bol)).
  - rewrite (@sub_loop_miss _ _ _ (@count_extends_zero _ _ H)).
    rewrite IH; [reflexivity|]. pose proof (count_extends_tail bol c s). lia.
Qed.

Lemma search_from_hit bol off (s : str) dl tl :
  scan bol s = Some (dl, tl) ->
  search_from run_pattern bol off s = Some (mkMatch off (off + (dl + tl)) (Some (0, dl))).
Proof.
  intro H. destruct s; cbn [search_from]; now rewrite match_here_run, H.
Qed.

Lemma search_from_miss bol off c (s : str) :
  scan bol (c :: s) = None ->
  search_from run_pattern bol off (c :: s) = search_from run_pattern (is_nl c) (S off) s.
Proof. intro H. cbn [search_from]. now rewrite match_here_run, H. Qed.

(** A text with at most one line that begins with [extends:]: no match and
    nothing changed, or one match, replaced. *)
Lemma sub_loop_once tpl (s : str) :
  forall bol off, count_extends bol s <= 1 ->
    (search_from run_pattern bol off s = None
     /\ sub_loop run_pattern tpl bol 0 s = (s, 0))
    \/
    (exists pre d tok rest,
        s = pre ++ d ++ tok ++ rest
        /\ last_nl bol pre = true /\ directive d /\ token tok /\ token_ends rest
        /\ search_from run_pattern bol off s =
             Some (mkMatch (off + List.length pre)
                     (off + List.length pre + (List.length d + List.length tok))
                     (Some (0, List.length d)))
        /\ sub_loop run_pattern tpl bol 0 s =
             (pre ++ expand tpl (d ++ tok) (Some (0, List.length d)) ++ rest, 1)).
Proof.
  induction s as [|c s IH]; intros bol off Hc.
  - left. split; [|now rewrite (@sub_loop_miss _ _ _ (scan_nil bol))].
    cbn [search_from]. now rewrite match_here_run, scan_nil.
  - destruct (scan bol (c :: s)) as [[dl tl]|] eqn:E.
    + right.
      destruct (@scan_sound _ _ _ _ E) as (Hb & d & tok & rest & Hs & Hld & Hlt & Hd & Ht & Hr).
      subst dl tl bol. exists [], d, tok, rest.
      split; [exact Hs|]. split; [reflexivity|]. do 3 (split; [assumption|]).
      split.
      { rewrite (@search_from_hit _ off _ _ _ E). cbn [List.length]. now rewrite Nat.add_0_r. }
      rewrite Hs in E |- *. rewrite (@sub_loop_hit _ _ _ _ _ E Hd Ht).
      assert (Hz : count_extends false rest = 0).
      { destruct (directive_cons Hd) as (c0 & d' & ->).
        cbn [app] in Hs. injection Hs as -> ->.
        assert (Hk : startswith (c0 :: d' ++ tok ++ rest) kw_extends = true).
        { change (c0 :: d' ++ tok ++ rest) with ((c0 :: d') ++ tok ++ rest).
          apply directive_kw in Hd. apply startswith_app in Hd as [r Hd].
          apply startswith_app. exists (r ++ tok ++ rest). rewrite Hd.
          now rewrite <- app_assoc. }
        cbn [count_extends andb] in Hc. rewrite Hk in Hc.
        pose proof (count_extends_suffix (d' ++ tok) rest (is_nl c0)) as Hsuf.
        rewrite last_nl_app, (last_nl_token _ Ht), <- app_assoc in Hsuf. lia. }
      rewrite (@sub_loop_clean _ _ _ Hz). cbn [fst snd app]. reflexivity.
    + pose proof (count_extends_tail bol c s) as Ht.
      destruct (IH (is_nl c) (S off)) as [[Hn Hsub]|(pre & d & tok & rest & Hs & Hb & Hd & Htok & Hr & Hm & Hsub)];
        [lia| |].
      * left. rewrite (@search_from_miss _ off _ _ E), (@sub_loop_miss _ _ _ E), Hsub.
        now split.
      * right. exists (c :: pre), d, tok, rest.
        split; [now rewrite Hs|]. split; [now rewrite last_nl_cons|].
        do 3 (split; [assumption|]). split.
        { rewrite (@search_from_miss _ off _ _ E), Hm. cbn [List.length]. do 2 f_equal; lia. }
        rewrite (@sub_loop_miss _ _ _ E), Hsub. reflexivity.
Qed.

(** ** The candidate list *)

Lemma fold_items u fscope sel (l : list Syntax) :
  forall acc,
    fold_left (list_items_step u fscope sel) l acc =
    acc ++ map (item_for sel) (filter (keep_syntax u fscope) l).
Proof.
  induction l as [|s l IH]; intro acc; cbn [fold_left filter].
  - now rewrite app_nil_r.
  - rewrite IH. unfold list_items_step, keep_syntax.
    destruct (hidden s); [reflexivity|].
    destruct (syntax_eqb s u); [reflexivity|].
    destruct (startswith (scope s) fscope); [|reflexivity].
    cbn [negb andb map]. now rewrite <- app_assoc.
Qed.

Lemma list_items_eq h u fscope content :
  filter_scope (scope u) = Ok fscope ->
  load_resource h (path u) = Some content ->
  list_items h u =
    Ok (map (item_for (selected_of h content))
          (filter (keep_syntax u fscope) (list_syntaxes h))).
Proof.
  intros Hf Hl. unfold list_items. rewrite Hf, Hl. now rewrite fold_items.
Qed.

Lemma NoDup_map_filter (f : Syntax -> bool) (l : list Syntax) :
  NoDup (map path l) -> NoDup (map path (filter f l)).
Proof.
  induction l as [|s l IH]; intro H; [constructor|].
  cbn [map] in H. inversion H as [|? ? Hn Hd]; subst.
  cbn [filter]. destruct (f s); [|now apply IH].
  cbn [map]. constructor; [|now apply IH].
  intro Hin. apply Hn. apply in_map_iff in Hin as (x & Hx & Hin).
  apply filter_In in Hin as [Hin _]. apply in_map_iff. now exists x.
Qed.

Lemma kinds_differ : selected_kind <> KIND_AMBIGUOUS.
Proof. discriminate. Qed.

Lemma marked_item_for sel s :
  marked (item_for sel s) <-> is_selected s sel = true.
Proof.
  unfold marked, item_for. cbn [kind].
  destruct (is_selected s sel); split; intro H; try reflexivity; discriminate.
Qed.

(** ** Paths *)

Lemma splitroot_relative (p : str) :
  (forall r, p <> chr_slash :: r) -> splitroot p = ([], p).
Proof.
  intro H. destruct p as [|c r]; [reflexivity|]. unfold splitroot.
  destruct (N.eqb c chr_slash) eqn:E; [|reflexivity].
  apply N.eqb_eq in E. subst c. now destruct (H r).
Qed.

Lemma parse_path_relative (p : str) :
  (forall r, p <> chr_slash :: r) ->
  parse_path p = mkPath [] (filter keep_part (split_on chr_slash p)).
Proof. intro H. unfold parse_path. now rewrite (splitroot_relative H). Qed.

Lemma written_text_lf (data : str) : written_text [chr_nl] data = data.
Proof. reflexivity. Qed.

(** ** The template of [run], for a path that is plain text *)

(** The substitution with a dialect path that is plain template text. *)
Lemma re_subn_plain (h : Host) (dialect_path old : str) :
  resource_path dialect_path -> ~ In chr_backslash dialect_path ->
  re_subn h run_pattern 1 (run_template dialect_path) old =
    Ok (sub_loop run_pattern
          (TGroup 1 :: map (fun c => TLit [c]) dialect_path) true 0 old).
Proof.
  intros Hp Hb. unfold re_subn.
  rewrite (parse_run_template _ _ (starts_packages_not_digit Hp)).
  now rewrite (@parse_plain _ _ _ _ Hb).
Qed.

(** ** The two patterns find the same match *)

Lemma search_from_alike (s : str) :
  forall bol off,
    search_from list_pattern bol off s =
    option_map as_list_match (search_from run_pattern bol off s).
Proof.
  induction s as [|c s IH]; intros bol off; cbn [search_from];
    rewrite match_here_run, match_here_list;
    destruct (scan bol _) as [[dl tl]|]; cbn [option_map]; try reflexivity.
  - unfold as_list_match. cbn [m_start m_end m_caps].
    now replace (off + (dl + tl) - off) with (dl + tl) by lia.
  - unfold as_list_match. cbn [m_start m_end m_caps].
    now replace (off + (dl + tl) - off) with (dl + tl) by lia.
  - apply IH.
Qed.

Lemma search_from_span (t : str) :
  forall bol off m,
    search_from run_pattern bol off t = Some m ->
    off <= m_start m /\ m_start m <= m_end m.
Proof.
  induction t as [|c t IH]; intros bol off m H; cbn [search_from] in H;
    destruct (match_here run_pattern bol _) as [[e g]|]; try discriminate.
  - injection H as <-. cbn. lia.
  - injection H as <-. cbn. lia.
  - apply IH in H. lia.
Qed.

Lemma group1_as_list_match (s : str) (m : Match) :
  search run_pattern s = Some m ->
  group1 s (as_list_match m) = matched_token s m.
Proof.
  intro Hm. unfold group1, matched_token, as_list_match. cbn [m_caps m_start].
  destruct (m_caps m) as [[a dl]|]; [|reflexivity].
  apply search_from_span in Hm.
  now replace (m_start m + (m_end m - m_start m)) with (m_end m) by lia.
Qed.

(** ** Counting the substitutions *)

Lemma sub_loop_count tpl n :
  forall (s : str) bol, List.length s <= n ->
    snd (sub_loop run_pattern tpl bol 0 s) <= count_extends bol s.
Proof.
  induction n as [|n IH]; intros s bol Hn.
  - destruct s; [|simpl in Hn; lia].
    now rewrite (@sub_loop_miss _ _ _ (scan_nil bol)).
  - destruct (scan bol s) as [[dl tl]|] eqn:E.
    + destruct (@scan_sound _ _ _ _ E) as (Hb & d & tok & rest & -> & Hld & Hlt & Hd & Ht & _).
      subst dl tl bol.
      rewrite (@sub_loop_hit _ _ _ _ _ E Hd Ht). cbn [snd].
      destruct (directive_cons Hd) as (c & d' & ->).
      assert (Hk : startswith ((c :: d') ++ tok ++ rest) kw_extends = true).
      { apply directive_kw in Hd. apply startswith_app in Hd as [r Hd].
        apply startswith_app. exists (r ++ tok ++ rest). rewrite Hd.
        now rewrite <- app_assoc. }
      cbn [app count_extends andb] in Hk |- *. rewrite Hk.
      pose proof (count_extends_suffix (d' ++ tok) rest (is_nl c)) as Hsuf.
      rewrite last_nl_app, (last_nl_token _ Ht), <- app_assoc in Hsuf.
      assert (Hr : snd (sub_loop run_pattern tpl false 0 rest) <= count_extends false rest).
      { apply IH. rewrite !length_app in Hn. cbn [List.length] in Hn. lia. }
      lia.
    + rewrite (@sub_loop_miss _ _ _ E). destruct s as [|c s']; [cbn; lia|].
      cbn [snd]. etransitivity; [apply IH; simpl in Hn; lia|].
      apply count_extends_tail.
Qed.

(** ** Pieces of text, again *)

Lemma substr_mid (a b c : str) :
  substr (List.length a) (List.length a + List.length b) (a ++ b ++ c) = b.
Proof.
  unfold substr. rewrite (skipn_exact a (b ++ c) eq_refl).
  replace (List.length a + List.length b - List.length a) with (List.length b) by lia.
  now apply firstn_exact.
Qed.

Lemma substr_token (a b c r : str) :
  substr (List.length a + List.length b)
    (List.length a + (List.length b + List.length c)) (a ++ b ++ c ++ r) = c.
Proof.
  rewrite Nat.add_assoc, <- length_app, app_assoc. apply substr_mid.
Qed.

Lemma span_len_exact p (w r : str) :
  Forall (fun c => p c = true) w ->
  match r with [] => True | c :: _ => p c = false end ->
  span_len p (w ++ r) = List.length w.
Proof.
  intros Hw Hr. rewrite (@span_len_app p w r Hw).
  destruct r as [|c r]; cbn [span_len]; [lia|]. rewrite Hr. lia.
Qed.

Lemma token_nonspace (t : str) :
  token t -> Forall (fun c => nonspace c = true) t.
Proof.
  intros [_ H]. eapply Forall_impl; [|exact H]. intros c Hc. unfold nonspace.
  now rewrite Hc.
Qed.

Lemma token_ends_stop (rest : str) :
  token_ends rest -> match rest with [] => True | c :: _ => nonspace c = false end.
Proof. destruct rest as [|c r]; [trivial|]. unfold token_ends, nonspace. now intros ->. Qed.

Lemma token_head (t r : str) :
  token t -> match t ++ r with [] => True | c :: _ => isspace c = false end.
Proof.
  intros [Hne H]. destruct t as [|c t]; [contradiction|]. now inversion H.
Qed.

(** ** Lines as the patterns read them *)

Lemma directive_line_pieces (d tok rest : str) :
  directive_line d tok rest -> directive d /\ token tok /\ token_ends rest.
Proof.
  intros [w t r Hw Ht Hr _|w1 w2 t r Hw1 Hw2 Ht Hr];
    (split; [|split; assumption]);
    [now apply directive_plain | now apply directive_dash].
Qed.

(** A dash with white space and more text after it is the marker. *)
Lemma marker_of_spans (rest : str) :
  Nat.eqb (span_len isspace rest) 0 = false ->
  Nat.eqb (span_len nonspace (skipn (span_len isspace rest) rest)) 0 = false ->
  reads_as_marker [chr_dash] rest.
Proof.
  intros H1 H2. split; [reflexivity|].
  destruct (span_split isspace rest) as (w & s2 & Hs & Hl & Hw & _).
  assert (Hsk : skipn (span_len isspace rest) rest = s2).
  { rewrite <- Hl, Hs. now apply skipn_exact. }
  rewrite Hsk in H2.
  destruct (span_split nonspace s2) as (t & r & Hs2 & Hlt & Ht & _).
  exists w, t, r. split; [eapply blank_of_span; eassumption|].
  split; [eapply token_of_span; eassumption|]. now rewrite <- Hs2.
Qed.

(** The attempt at the beginning of a line that is divided as the patterns
    divide it succeeds with exactly these pieces. *)
Lemma scan_exact (d tok rest : str) :
  directive_line d tok rest ->
  scan true (d ++ tok ++ rest) = Some (List.length d, List.length tok).
Proof.
  intros [w tok0 rest0 [Hwne Hw] Ht Hr Hm | w1 w2 tok0 rest0 [Hw1ne Hw1] [Hw2ne Hw2] Ht Hr];
    assert (Htok : span_len nonspace (tok0 ++ rest0) = List.length tok0)
      by (apply span_len_exact; [now apply token_nonspace|now apply token_ends_stop]);
    assert (Hpos : Nat.eqb (List.length tok0) 0 = false)
      by (destruct Ht as [Hne _]; destruct tok0; [contradiction|reflexivity]);
    unfold scan; rewrite <- !app_assoc.
  - assert (Hwl : Nat.eqb (List.length w) 0 = false).
    { destruct w; [contradiction|reflexivity]. }
    rewrite (proj2 (strip_prefix_app kw_extends _ (w ++ tok0 ++ rest0)) eq_refl).
    unfold scan_tail. cbv zeta.
    rewrite (@span_len_exact isspace w (tok0 ++ rest0) Hw (@token_head tok0 rest0 Ht)).
    rewrite (skipn_exact w (tok0 ++ rest0) eq_refl).
    rewrite Hwl, Htok, Hpos, length_app, kw_length.
    destruct tok0 as [|c t']; [destruct Ht; contradiction|]. cbn [app].
    destruct (N.eqb c chr_dash) eqn:Ec; [|reflexivity].
    apply N.eqb_eq in Ec. subst c.
    assert (Hor : Nat.eqb (span_len isspace (t' ++ rest0)) 0
                  || Nat.eqb (span_len nonspace
                                (skipn (span_len isspace (t' ++ rest0)) (t' ++ rest0))) 0
                  = true).
    { destruct t' as [|c' t''].
      - cbn [app]. apply not_false_iff_true. intro Hf. apply orb_false_iff in Hf as [H1 H2].
        apply Hm. now apply marker_of_spans.
      - destruct Ht as [_ Ht]. inversion Ht as [|? ? _ Ht']; subst.
        inversion Ht' as [|? ? Hc' _]; subst. cbn [app span_len]. now rewrite Hc'. }
    now rewrite Hor.
  - rewrite (proj2 (strip_prefix_app kw_extends _
                      (w1 ++ [chr_dash] ++ w2 ++ tok0 ++ rest0)) eq_refl).
    unfold scan_tail. cbv zeta.
    rewrite (@span_len_exact isspace w1 ([chr_dash] ++ w2 ++ tok0 ++ rest0) Hw1
               dash_not_space).
    rewrite (skipn_exact w1 ([chr_dash] ++ w2 ++ tok0 ++ rest0) eq_refl).
    assert (Hw1l : Nat.eqb (List.length w1) 0 = false).
    { destruct w1; [contradiction|reflexivity]. }
    assert (Hw2l : Nat.eqb (List.length w2) 0 = false).
    { destruct w2; [contradiction|reflexivity]. }
    rewrite Hw1l. cbn [app]. rewrite N.eqb_refl.
    rewrite (@span_len_exact isspace w2 (tok0 ++ rest0) Hw2 (@token_head tok0 rest0 Ht)).
    rewrite (skipn_exact w2 (tok0 ++ rest0) eq_refl).
    rewrite Hw2l, Htok, Hpos. cbn [orb].
    rewrite !length_app, kw_length. cbn [List.length]. do 2 f_equal. lia.
Qed.

(** A token that does not begin with a dash is never the marker. *)
Lemma directive_line_of (d t rest : str) :
  directive d -> token t -> token_ends rest ->
  (forall r, t <> chr_dash :: r) ->
  directive_line d t rest.
Proof.
  intros Hd Ht Hr Hdash. destruct Hd as [w Hw|w1 w2 Hw1 Hw2].
  - apply line_plain; try assumption. intros [-> _]. now destruct (Hdash []).
  - now apply line_dash.
Qed.

(** What an attempt matches is a line as the patterns read it: the dash is
    in the directive whenever it can be. *)
Lemma scan_reads bol (s : str) dl tl :
  scan bol s = Some (dl, tl) ->
  bol = true /\
  exists d tok rest,
    s = d ++ tok ++ rest /\ List.length d = dl /\ List.length tok = tl
    /\ directive_line d tok rest.
Proof.
  intro E. destruct (scan_sound _ _ E) as (Hb & d & tok & rest & Hs & Hld & Hlt & Hd & Ht & Hr).
  split; [assumption|]. exists d, tok, rest. repeat split; try assumption.
  subst bol. destruct Hd as [w Hw|w1 w2 Hw1 Hw2]; [|now apply line_dash].
  apply line_plain; try assumption.
  intros [-> (w2 & t & r & Hw2 & Ht2 & ->)].
  destruct (span_split nonspace (t ++ r)) as (t' & r' & Htr & Hlt' & Ht' & Hr').
  assert (Htok' : token t').
  { eapply token_of_span; [exact Hlt'| |exact Ht'].
    rewrite (@span_len_app nonspace t r (token_nonspace Ht2)).
    destruct Ht2 as [Hne _]. destruct t; [contradiction|reflexivity]. }
  pose proof (@scan_exact _ _ _
                (@line_dash w w2 t' r' Hw Hw2 Htok' (token_ends_of_span _ Hr'))) as E'.
  rewrite <- Htr in E'.
  replace ((kw_extends ++ w ++ [chr_dash] ++ w2) ++ t ++ r)
    with ((kw_extends ++ w) ++ [chr_dash] ++ w2 ++ t ++ r) in E'
    by now rewrite <- !app_assoc.
  rewrite Hs in E. rewrite E in E'. injection E' as Hl1 _.
  subst dl. rewrite !length_app, kw_length in Hl1. cbn [List.length] in Hl1. lia.
Qed.

(** A directive, a token that does not begin with a dash, and the end of
    the token: the attempt succeeds with exactly these pieces. *)
Lemma scan_complete (d t rest : str) :
  directive d -> token t -> token_ends rest ->
  (forall r, t <> chr_dash :: r) ->
  scan true (d ++ t ++ rest) = Some (List.length d, List.length t).
Proof.
  intros Hd Ht Hr Hdash. apply scan_exact. now apply directive_line_of.
Qed.

(** What a match of the pattern of [run] holds: group 1 is the directive,
    dash marker included, and the rest of the match is the token. *)
Lemma match_reads b (d tok rest : str) :
  match_here run_pattern b (d ++ tok ++ rest) =
    Some (List.length d + List.length tok, Some (0, List.length d)) ->
  b = true /\ directive_line d tok rest.
Proof.
  rewrite match_here_run. destruct (scan b (d ++ tok ++ rest)) as [[dl tl]|] eqn:E;
    [|discriminate].
  intro H. injection H as H1 H2. subst dl.
  apply scan_reads in E as (Hb & d' & tok' & rest' & Hs & Hld & Hlt & Hl).
  split; [assumption|].
  assert (Hd : d = d').
  { apply (f_equal (firstn (List.length d))) in Hs.
    rewrite (firstn_exact d (tok ++ rest) eq_refl) in Hs.
    rewrite <- Hld in Hs. now rewrite (firstn_exact d' (tok' ++ rest') eq_refl) in Hs. }
  subst d'. apply app_inv_head in Hs.
  assert (Ht : tok = tok').
  { assert (Hlen : List.length tok = List.length tok') by lia.
    apply (f_equal (firstn (List.length tok))) in Hs.
    rewrite (firstn_exact tok rest eq_refl) in Hs.
    rewrite Hlen in Hs. now rewrite (firstn_exact tok' rest' eq_refl) in Hs. }
  subst tok'. apply app_inv_head in Hs. now subst rest'.
Qed.

(** The text after a match that was the only line with [extends:]. *)
Lemma rest_is_clean (d tok rest : str) :
  directive d -> token tok ->
  count_extends true (d ++ tok ++ rest) <= 1 ->
  count_extends false rest = 0.
Proof.
  intros Hd Ht Hc. destruct (directive_cons Hd) as (c0 & d' & ->).
  assert (Hk : startswith ((c0 :: d') ++ tok ++ rest) kw_extends = true).
  { apply directive_kw in Hd. apply startswith_app in Hd as [r Hd].
    apply startswith_app. exists (r ++ tok ++ rest). rewrite Hd.
    now rewrite <- app_assoc. }
  cbn [app count_extends andb] in Hk, Hc. rewrite Hk in Hc.
  pose proof (count_extends_suffix (d' ++ tok) rest (is_nl c0)) as Hsuf.
  rewrite last_nl_app, (last_nl_token _ Ht), <- app_assoc in Hsuf. lia.
Qed.

Lemma directive_counts (d x : str) : directive d -> 1 <= count_extends true (d ++ x).
Proof.
  intro Hd. destruct (directive_cons Hd) as (c0 & d' & ->).
  assert (Hk : startswith ((c0 :: d') ++ x) kw_extends = true).
  { apply directive_kw in Hd. apply startswith_app in Hd as [r Hd].
    apply startswith_app. exists (r ++ x). rewrite Hd. now rewrite <- app_assoc. }
  cbn [app count_extends andb] in Hk |- *. rewrite Hk. lia.
Qed.

Lemma resource_path_no_dash (p : str) : resource_path p -> forall r, p <> chr_dash :: r.
Proof. intros H r ->. apply startswith_app in H as [r' H]. discriminate. Qed.

Lemma resource_path_token (p : str) :
  resource_path p -> Forall (fun c => isspace c = false) p -> token p.
Proof.
  intros H Hs. split; [|assumption]. intros ->. discriminate H.
Qed.

(** ** The text before the first directive *)

Lemma startswith_more (a x k : str) :
  startswith a k = true -> startswith (a ++ x) k = true.
Proof.
  intro H. apply startswith_app in H as [r ->]. apply startswith_app.
  exists (r ++ x). now rewrite <- app_assoc.
Qed.

(** A prefix without a line feed does not reach over the end of a line. *)
Lemma startswith_line (k : str) :
  Forall (fun c => is_nl c = false) k ->
  forall (a x : str) b, a <> [] -> last_nl b a = true ->
    startswith (a ++ x) k = startswith a k.
Proof.
  induction 1 as [|y k Hy _ IH]; intros a x b Hne Hb; [now destruct a|].
  destruct a as [|c a]; [contradiction|]. cbn [app startswith].
  rewrite last_nl_cons in Hb. destruct a as [|c' a'].
  - cbn [last_nl fold_left] in Hb. destruct (N.eqb c y) eqn:E; [|reflexivity].
    apply N.eqb_eq in E. subst y. congruence.
  - now rewrite (IH (c' :: a') x (is_nl c)).
Qed.

Lemma kw_one_line : Forall (fun c => is_nl c = false) kw_extends.
Proof. repeat constructor. Qed.

Lemma scan_clean_prefix bol c (pre x : str) :
  count_extends bol (c :: pre) = 0 -> last_nl bol (c :: pre) = true ->
  scan bol (c :: pre ++ x) = None.
Proof.
  intros Hc Hb. destruct (scan bol (c :: pre ++ x)) as [[dl tl]|] eqn:E; [|reflexivity].
  apply scan_starts in E as [-> Hs].
  change (c :: pre ++ x) with ((c :: pre) ++ x) in Hs.
  rewrite (@startswith_line _ kw_one_line (c :: pre) x true) in Hs
    by (assumption || discriminate).
  cbn [count_extends andb] in Hc. rewrite Hs in Hc. discriminate.
Qed.

Lemma sub_loop_clean_prefix tpl (pre x : str) :
  forall bol, count_extends bol pre = 0 -> last_nl bol pre = true ->
    sub_loop run_pattern tpl bol 0 (pre ++ x) =
      (pre ++ fst (sub_loop run_pattern tpl true 0 x),
       snd (sub_loop run_pattern tpl true 0 x)).
Proof.
  induction pre as [|c pre IH]; intros bol Hc Hb.
  - cbn [last_nl fold_left] in Hb. subst bol. cbn [app].
    now destruct (sub_loop run_pattern tpl true 0 x).
  - cbn [app]. rewrite (@sub_loop_miss _ _ _ (@scan_clean_prefix _ _ _ x Hc Hb)).
    rewrite last_nl_cons in Hb.
    rewrite IH; [reflexivity| |assumption].
    pose proof (count_extends_tail bol c pre). lia.
Qed.


Lemma count_extends_app (pre y : str) :
  forall b, count_extends b pre + count_extends (last_nl b pre) y
            <= count_extends b (pre ++ y).
Proof.
  induction pre as [|c pre IH]; intro b; [cbn; lia|].
  rewrite last_nl_cons. cbn [app count_extends]. specialize (IH (is_nl c)).
  destruct b; cbn [andb]; [|lia].
  destruct (startswith (c :: pre) kw_extends) eqn:E; [|lia].
  change (c :: pre ++ y) with ((c :: pre) ++ y).
  rewrite (@startswith_more _ y _ E). lia.
Qed.

(** The first directive of a text, and the only one: the substitution
    replaces its token and nothing else. *)
Lemma sub_loop_line tpl (pre d tok rest : str) :
  last_nl true pre = true -> directive_line d tok rest ->
  count_extends true (pre ++ d ++ tok ++ rest) <= 1 ->
  sub_loop run_pattern tpl true 0 (pre ++ d ++ tok ++ rest) =
    (pre ++ expand tpl (d ++ tok) (Some (0, List.length d)) ++ rest, 1).
Proof.
  intros Hb Hl Hc. destruct (directive_line_pieces Hl) as (Hd & Ht & Hr).
  pose proof (count_extends_app pre (d ++ tok ++ rest) true) as Happ.
  rewrite Hb in Happ.
  pose proof (@directive_counts d (tok ++ rest) Hd) as Hone.
  assert (Hrest : count_extends false rest = 0).
  { apply (@rest_is_clean d tok rest Hd Ht). lia. }
  rewrite sub_loop_clean_prefix by (assumption || lia).
  rewrite (@sub_loop_hit _ _ _ _ _ (scan_exact Hl) Hd Ht).
  rewrite (@sub_loop_clean _ _ _ Hrest). cbn [fst snd]. reflexivity.
Qed.



(** ** The text after a substitution *)

Lemma scan_false (s : str) : scan false s = None.
Proof. reflexivity. Qed.

(** After a token the loop copies the white space that ends it. *)
Lemma sub_loop_token_ends tpl (rest : str) :
  token_ends rest -> token_ends (fst (sub_loop run_pattern tpl false 0 rest)).
Proof.
  intro H. rewrite (@sub_loop_miss _ _ _ (scan_false rest)).
  destruct rest; [exact I|exact H].
Qed.

(** Inside a line the loop copies: a prefix without a line feed is found in
    the result exactly when it is found in the text. *)
Lemma sub_loop_strip tpl (k : str) :
  Forall (fun c => is_nl c = false) k ->
  forall s : str,
    strip_prefix k (fst (sub_loop run_pattern tpl false 0 s)) =
    option_map (fun s1 => fst (sub_loop run_pattern tpl false 0 s1)) (strip_prefix k s).
Proof.
  induction 1 as [|y k Hy _ IH]; intro s; [reflexivity|].
  rewrite (@sub_loop_miss _ _ _ (scan_false s)).
  destruct s as [|c s']; [reflexivity|]. cbn [fst strip_prefix].
  destruct (N.eqb c y) eqn:E; [|reflexivity].
  apply N.eqb_eq in E. subst y. rewrite Hy. apply IH.
Qed.

Lemma space_not_e (c : char) : isspace c = true -> N.eqb c 101 = false.
Proof.
  intro H. destruct (N.eqb c 101) eqn:E; [|reflexivity].
  apply N.eqb_eq in E. subst c. discriminate H.
Qed.

Lemma blank_clean (w : str) :
  Forall (fun c => isspace c = true) w -> forall b, count_extends b w = 0.
Proof.
  induction 1 as [|c w Hc _ IH]; intro b; [reflexivity|].
  cbn [count_extends]. rewrite IH.
  change kw_extends with (101%N :: lit "xtends:"). cbn [startswith].
  rewrite (space_not_e _ Hc). now destruct b.
Qed.

(** Why the text after [extends:] gives no match: it does not begin with
    white space, or it is white space to the end. *)
Lemma scan_tail_none (z : str) :
  scan_tail z = None ->
  span_len isspace z = 0 \/ Forall (fun c => isspace c = true) z.
Proof.
  unfold scan_tail. cbv zeta.
  destruct (Nat.eqb (span_len isspace z) 0) eqn:E1; [left; now apply Nat.eqb_eq|].
  intro H. right.
  destruct (span_split isspace z) as (w & s2 & Hs & Hl & Hw & Hstop).
  assert (Hsk : skipn (span_len isspace z) z = s2).
  { rewrite <- Hl, Hs. now apply skipn_exact. }
  rewrite Hsk in H.
  assert (Hplain : Nat.eqb (span_len nonspace s2) 0 = true).
  { destruct (Nat.eqb (span_len nonspace s2) 0) eqn:Et; [reflexivity|].
    destruct s2 as [|c s3]; [discriminate Et|].
    destruct (N.eqb c chr_dash); [|discriminate H].
    destruct (Nat.eqb (span_len isspace s3) 0
              || Nat.eqb (span_len nonspace (skipn (span_len isspace s3) s3)) 0);
      discriminate H. }
  destruct s2 as [|c s3]; [now rewrite Hs, app_nil_r|].
  cbn [span_len] in Hplain. unfold nonspace in Hplain. rewrite Hstop in Hplain.
  discriminate Hplain.
Qed.

Lemma scan_tail_kept tpl (z : str) :
  scan_tail z = None ->
  scan_tail (fst (sub_loop run_pattern tpl false 0 z)) = None.
Proof.
  intro H. destruct (scan_tail_none _ H) as [H0|Hw].
  - rewrite (@sub_loop_miss _ _ _ (scan_false z)).
    destruct z as [|c z']; [reflexivity|]. cbn [fst].
    unfold scan_tail. cbv zeta. cbn [span_len] in H0 |- *.
    destruct (isspace c); [discriminate H0|reflexivity].
  - now rewrite (@sub_loop_clean _ _ _ (blank_clean Hw false)).
Qed.

(** A position where the pattern does not match does not match after the
    substitution either. *)
Lemma scan_miss_kept tpl bol (s : str) :
  scan bol s = None ->
  scan bol (fst (sub_loop run_pattern tpl bol 0 s)) = None.
Proof.
  intro H. destruct bol; [|reflexivity].
  rewrite (@sub_loop_miss _ _ _ H).
  destruct s as [|c s']; [reflexivity|]. cbn [fst].
  unfold scan in H |- *. change kw_extends with (101%N :: lit "xtends:") in *.
  cbn [strip_prefix] in H |- *.
  destruct (N.eqb c 101) eqn:E; [|reflexivity].
  apply N.eqb_eq in E. subst c. change (is_nl 101%N) with false.
  rewrite sub_loop_strip by (repeat constructor).
  destruct (strip_prefix (lit "xtends:") s') as [s1|]; [|reflexivity].
  cbn [option_map].
  destruct (scan_tail s1) as [[dl tl]|] eqn:Et; [discriminate H|].
  now rewrite (scan_tail_kept _ _ Et).
Qed.

(** In the next lemmas [p] is the dialect path, a token that does not
    begin with a dash, and the template is the one of [run] for it. *)

(** A position where the pattern matches: the directive stays, the token
    is [p], and the pattern matches the result at the same position. *)
Lemma scan_hit_kept (p : str) bol (s : str) dl tl :
  token p -> (forall r, p <> chr_dash :: r) ->
  scan bol s = Some (dl, tl) ->
  exists d rest',
    List.length d = dl /\ directive d /\ token_ends rest'
    /\ fst (sub_loop run_pattern (TGroup 1 :: map (fun c => TLit [c]) p) bol 0 s)
        = d ++ p ++ rest'
    /\ scan bol (d ++ p ++ rest') = Some (dl, List.length p)
    /\ exists tok rest,
         s = d ++ tok ++ rest /\ token tok
         /\ rest' = fst (sub_loop run_pattern
                           (TGroup 1 :: map (fun c => TLit [c]) p) false 0 rest).
Proof.
  intros Hp Hdash E.
  destruct (scan_sound _ _ E) as (Hb & d & tok & rest & -> & Hld & Hlt & Hd & Ht & Hr).
  subst dl tl bol.
  exists d, (fst (sub_loop run_pattern (TGroup 1 :: map (fun c => TLit [c]) p) false 0 rest)).
  pose proof (sub_loop_token_ends (TGroup 1 :: map (fun c => TLit [c]) p) _ Hr) as Hr'.
  split; [reflexivity|]. split; [assumption|]. split; [assumption|]. split.
  - rewrite (@sub_loop_hit _ _ _ _ _ E Hd Ht). cbn [fst].
    now rewrite expand_group1, expand_plain, <- app_assoc.
  - split; [now apply scan_complete|]. now exists tok, rest.
Qed.

(** The substitution is idempotent. *)
Lemma sub_loop_twice (p : str) n :
  token p -> (forall r, p <> chr_dash :: r) ->
  forall (s : str) bol, List.length s <= n ->
    fst (sub_loop run_pattern (TGroup 1 :: map (fun c => TLit [c]) p) bol 0
           (fst (sub_loop run_pattern (TGroup 1 :: map (fun c => TLit [c]) p) bol 0 s)))
    = fst (sub_loop run_pattern (TGroup 1 :: map (fun c => TLit [c]) p) bol 0 s).
Proof.
  intros Hp Hdash. induction n as [|n IH]; intros s bol Hn.
  - destruct s; [|simpl in Hn; lia].
    now rewrite !(@sub_loop_miss _ _ _ (scan_nil bol)).
  - destruct (scan bol s) as [[dl tl]|] eqn:E.
    + destruct (@scan_hit_kept p _ _ _ _ Hp Hdash E)
        as (d & rest' & Hld & Hd & Hr' & Hout & Hscan & tok & rest & Hs & Htok & Hrest).
      pose proof (scan_starts _ _ E) as [-> _].
      rewrite Hout. subst dl.
      rewrite (@sub_loop_hit _ _ _ _ _ Hscan Hd Hp). cbn [fst].
      rewrite expand_group1, expand_plain, <- app_assoc.
      do 2 f_equal. rewrite Hrest. apply IH.
      destruct (directive_cons Hd) as (c & d' & ->). rewrite Hs in Hn.
      rewrite !length_app in Hn. cbn [List.length] in Hn. lia.
    + pose proof (@scan_miss_kept (TGroup 1 :: map (fun c => TLit [c]) p) _ _ E) as E'.
      rewrite (@sub_loop_miss _ _ _ E) in E' |- *.
      destruct s as [|c s']; [now rewrite (@sub_loop_miss _ _ _ (scan_nil bol))|].
      cbn [fst] in E' |- *. rewrite (@sub_loop_miss _ _ _ E'). cbn [fst].
      f_equal. apply IH. simpl in Hn. lia.
Qed.

(** Where the search stops in the text, it stops in the result, and the
    token there is [p]. *)
Lemma search_kept (p : str) :
  token p -> (forall r, p <> chr_dash :: r) ->
  forall (s : str) bol off m,
    search_from run_pattern bol off s = Some m ->
    exists pre d rest',
      fst (sub_loop run_pattern (TGroup 1 :: map (fun c => TLit [c]) p) bol 0 s)
        = pre ++ d ++ p ++ rest'
      /\ search_from run_pattern bol off
           (fst (sub_loop run_pattern (TGroup 1 :: map (fun c => TLit [c]) p) bol 0 s)) =
           Some (mkMatch (off + List.length pre)
                   (off + List.length pre + (List.length d + List.length p))
                   (Some (0, List.length d))).
Proof.
  intros Hp Hdash. induction s as [|c s IH]; intros bol off m H.
  - cbn [search_from] in H. rewrite match_here_run, scan_nil in H. discriminate.
  - destruct (scan bol (c :: s)) as [[dl tl]|] eqn:E.
    + destruct (@scan_hit_kept p _ _ _ _ Hp Hdash E)
        as (d & rest' & Hld & Hd & Hr' & Hout & Hscan & _).
      exists [], d, rest'. split; [exact Hout|]. rewrite Hout.
      rewrite (@search_from_hit _ off _ _ _ Hscan). subst dl. cbn [List.length app].
      now rewrite Nat.add_0_r.
    + rewrite (@search_from_miss _ off _ _ E) in H.
      destruct (IH _ _ _ H) as (pre & d & rest' & Hout & Hs).
      pose proof (@scan_miss_kept (TGroup 1 :: map (fun c => TLit [c]) p) _ _ E) as E'.
      rewrite (@sub_loop_miss _ _ _ E) in E' |- *. cbn [fst] in E' |- *.
      exists (c :: pre), d, rest'. split; [now rewrite Hout|].
      rewrite (@search_from_miss _ off _ _ E'), Hs. cbn [List.length].
      do 2 f_equal; lia.
Qed.

(** A text with a directive line has a match, there or before. *)
Lemma search_finds_line (d tok rest : str) :
  directive_line d tok rest ->
  forall (pre : str) bol off,
    last_nl bol pre = true ->
    exists m, search_from run_pattern bol off (pre ++ d ++ tok ++ rest) = Some m.
Proof.
  intros Hl. induction pre as [|c pre IH]; intros bol off Hb.
  - cbn [last_nl fold_left] in Hb. subst bol. cbn [app].
    rewrite (@search_from_hit _ off _ _ _ (scan_exact Hl)). now eexists.
  - cbn [app]. destruct (scan bol (c :: pre ++ d ++ tok ++ rest)) as [[dl tl]|] eqn:E.
    + rewrite (@search_from_hit _ off _ _ _ E). now eexists.
    + rewrite (@search_from_miss _ off _ _ E). apply IH. now rewrite last_nl_cons in Hb.
Qed.

(** The substitution of [run] applied to its own result. *)
Lemma new_content_again (h : Host) (p old new : str) :
  resource_path p -> ~ In chr_backslash p ->
  Forall (fun c => isspace c = false) p ->
  new_content_of h p old = Ok new ->
  new_content_of h p new = Ok new.
Proof.
  intros Hp Hb Hs. unfold new_content_of, re_sub.
  rewrite !(@re_subn_plain h p _ Hp Hb).
  pose proof (@sub_loop_twice p (List.length old) (@resource_path_token _ Hp Hs)
                (@resource_path_no_dash _ Hp) old true (le_n _)) as Ht.
  destruct (sub_loop run_pattern _ true 0 old) as [out cnt]. cbn [fst] in Ht.
  intro H. injection H as <-.
  destruct (sub_loop run_pattern _ true 0 out) as [out2 cnt2]. cbn [fst] in Ht.
  now rewrite Ht.
Qed.

(** ** What the frame relation keeps *)

(** Where no match can begin, a step of the relation copies. *)
Lemma otc_cons_inv b c (s new : str) :
  only_tokens_changed b (c :: s) new ->
  b = false \/ N.eqb c 101 = false ->
  exists new0, new = c :: new0 /\ only_tokens_changed (is_nl c) s new0.
Proof.
  intros H Hz.
  inversion H as [|b0 c0 old0 new0 H0|b0 d tok tok' old0 new0 Hm H0 Hb Hs]; subst.
  - now exists new0.
  - exfalso. rewrite Hs, match_here_run in Hm.
    destruct (scan b (c :: s)) as [[dl tl]|] eqn:E; [|discriminate].
    apply scan_starts in E as [-> Hk].
    change kw_extends with (101%N :: lit "xtends:") in Hk. cbn [startswith] in Hk.
    apply andb_true_iff in Hk as [Hk _]. destruct Hz as [Hz|Hz]; congruence.
Qed.

Lemma otc_copies_inline (k : str) :
  Forall (fun c => is_nl c = false) k ->
  forall r new : str,
    only_tokens_changed false (k ++ r) new ->
    exists new', new = k ++ new' /\ only_tokens_changed false r new'.
Proof.
  induction 1 as [|c k Hc _ IH]; intros r new H; [now exists new|].
  cbn [app] in H. apply otc_cons_inv in H as (new0 & -> & H); [|now left].
  rewrite Hc in H. apply IH in H as (new' & -> & H). now exists new'.
Qed.

Lemma otc_copies_blank (w : str) :
  Forall (fun c => N.eqb c 101 = false) w ->
  forall b (r new : str),
    only_tokens_changed b (w ++ r) new ->
    exists new', new = w ++ new' /\ only_tokens_changed (last_nl b w) r new'.
Proof.
  induction 1 as [|c w Hc _ IH]; intros b r new H; [now exists new|].
  cbn [app] in H. apply otc_cons_inv in H as (new0 & -> & H); [|now right].
  apply IH in H as (new' & -> & H). exists new'. split; [reflexivity|].
  now rewrite last_nl_cons.
Qed.

Lemma directive_tail (d : str) :
  directive d ->
  exists w, d = kw_extends ++ w /\ Forall (fun c => N.eqb c 101 = false) w.
Proof.
  intros [w [_ Hw]|w1 w2 [_ Hw1] [_ Hw2]].
  - exists w. split; [reflexivity|].
    eapply Forall_impl; [|exact Hw]. intros c Hc. now apply space_not_e.
  - exists (w1 ++ [chr_dash] ++ w2). split; [reflexivity|].
    apply Forall_app. split; [|apply Forall_app; split].
    + eapply Forall_impl; [|exact Hw1]. intros c Hc. now apply space_not_e.
    + now repeat constructor.
    + eapply Forall_impl; [|exact Hw2]. intros c Hc. now apply space_not_e.
Qed.

(** The relation keeps group 1 of a match: where the pattern of [run]
    matches the old text, the new text begins with the same directive, dash
    marker included. *)
Lemma otc_keeps_directive b (s new : str) e dl :
  only_tokens_changed b s new ->
  match_here run_pattern b s = Some (e, Some (0, dl)) ->
  firstn dl new = firstn dl s.
Proof.
  intros H Hm. rewrite match_here_run in Hm.
  destruct (scan b s) as [[dl0 tl]|] eqn:E; [|discriminate].
  injection Hm as _ <-.
  destruct (scan_sound _ _ E) as (Hb & d & tok & rest & Hs & Hld & Hlt & Hd & Ht & Hr).
  enough (Hex : exists n2, new = d ++ n2).
  { destruct Hex as [n2 ->]. rewrite Hs, <- Hld.
    now rewrite (firstn_exact d n2 eq_refl), (firstn_exact d (tok ++ rest) eq_refl). }
  inversion H as [b0 Hb0 Hs0 Hn0
                 |b0 c0 old0 new0 H0 Hb0 Hs0 Hn0
                 |b0 d0 tok0 tok' old0 new0 Hm0 H0 Hb0 Hs0 Hn0];
    subst b0; try rewrite <- Hn0.
  - rewrite <- Hs0 in Hs. destruct (directive_cons Hd) as (c & d' & ->). discriminate Hs.
  - destruct (directive_tail Hd) as (w & Hdw & Hw).
    assert (Hold : c0 :: old0 = 101%N :: (lit "xtends:" ++ w ++ tok ++ rest)).
    { rewrite Hs0, Hs, Hdw. now rewrite <- app_assoc. }
    injection Hold as Hc Ho. subst c0 old0.
    change (is_nl 101%N) with false in H0.
    assert (Hk : Forall (fun c => is_nl c = false) (lit "xtends:"))
      by (repeat constructor).
    apply (@otc_copies_inline (lit "xtends:") Hk (w ++ tok ++ rest)) in H0
      as (n1 & Hn1 & H0).
    apply otc_copies_blank in H0 as (n2 & Hn2 & H0); [|assumption].
    exists n2. rewrite Hn1, Hn2, Hdw. now rewrite <- app_assoc.
  - rewrite Hs0, match_here_run, E in Hm0. injection Hm0 as _ Hl0.
    exists (tok' ++ new0). f_equal.
    assert (Heq : d0 ++ tok0 ++ old0 = d ++ tok ++ rest) by congruence.
    apply (f_equal (firstn (List.length d0))) in Heq.
    rewrite (firstn_exact d0 (tok0 ++ old0) eq_refl) in Heq.
    rewrite <- Hl0, <- Hld in Heq.
    now rewrite (firstn_exact d (tok ++ rest) eq_refl) in Heq.
Qed.

(** For instance, a text in which the dash marker was overwritten is not
    the old text with only tokens changed. *)
Lemma otc_dash_example :
  ~ only_tokens_changed true (lit "extends: - Packages/A") (lit "extends: B Packages/A").
Proof.
  intro H. apply (@otc_keeps_directive true _ _ 21 11) in H; [discriminate H|].
  vm_compute. reflexivity.
Qed.

(** ** Absolute paths *)

Lemma split_on_nosep sep (p : str) : ~ In sep p -> split_on sep p = [p].
Proof.
  induction p as [|c p IH]; intro H; [reflexivity|]. cbn [split_on].
  destruct (N.eqb c sep) eqn:E.
  - apply N.eqb_eq in E. subst c. destruct H. now left.
  - rewrite IH; [reflexivity|]. intro Hin. apply H. now right.
Qed.

Lemma split_on_app sep (p r : str) :
  ~ In sep p -> split_on sep (p ++ sep :: r) = p :: split_on sep r.
Proof.
  induction p as [|c p IH]; intro H; cbn [app split_on].
  - now rewrite N.eqb_refl.
  - destruct (N.eqb c sep) eqn:E.
    + apply N.eqb_eq in E. subst c. destruct H. now left.
    + rewrite IH; [reflexivity|]. intro Hin. apply H. now right.
Qed.

Lemma split_join sep (parts : list str) :
  parts <> [] -> Forall (fun p => ~ In sep p) parts ->
  split_on sep (join [sep] parts) = parts.
Proof.
  induction parts as [|p ps IH]; intros Hne Hall; [contradiction|].
  inversion Hall as [|? ? Hp Hps]; subst.
  destruct ps as [|q qs]; [now apply split_on_nosep|].
  change (join [sep] (p :: q :: qs)) with (p ++ sep :: join [sep] (q :: qs)).
  rewrite (@split_on_app sep p _ Hp), IH; [reflexivity|discriminate|assumption].
Qed.

Lemma join_app sep (a b : list str) :
  a <> [] -> b <> [] ->
  join [sep] (a ++ b) = join [sep] a ++ [sep] ++ join [sep] b.
Proof.
  induction a as [|p ps IH]; intros Ha Hb; [contradiction|].
  destruct ps as [|q qs].
  - destruct b as [|x xs]; [contradiction|]. reflexivity.
  - change (join [sep] ((p :: q :: qs) ++ b))
      with (p ++ [sep] ++ join [sep] ((q :: qs) ++ b)).
    rewrite IH; [|discriminate|assumption].
    change (join [sep] (p :: q :: qs)) with (p ++ [sep] ++ join [sep] (q :: qs)).
    now rewrite <- !app_assoc.
Qed.

Lemma filter_keep_plain (parts : list str) :
  Forall plain_part parts -> filter keep_part parts = parts.
Proof.
  induction 1 as [|p ps (H1 & H2 & _) _ IH]; [reflexivity|].
  assert (Hk : keep_part p = true).
  { unfold keep_part. apply str_eqb_neq in H1, H2. now rewrite H1, H2. }
  simpl. rewrite Hk. now rewrite IH.
Qed.

Lemma plain_parts_no_slash (parts : list str) :
  Forall plain_part parts -> Forall (fun p => ~ In chr_slash p) parts.
Proof. apply Forall_impl. now intros p (_ & _ & H). Qed.

(** The text of a path made of plain components starts with a character
    that is no slash. *)
Lemma join_plain_head (p : str) (ps : list str) :
  plain_part p -> exists c r, join [chr_slash] (p :: ps) = c :: r /\ c <> chr_slash.
Proof.
  intros (Hne & _ & Hs). destruct p as [|c p']; [contradiction|].
  exists c. destruct ps as [|q qs]; cbn [join app]; eexists; (split; [reflexivity|]);
    intros ->; apply Hs; now left.
Qed.

Lemma parse_path_absolute (p : str) (ps : list str) :
  Forall plain_part (p :: ps) ->
  parse_path ([chr_slash] ++ join [chr_slash] (p :: ps)) = mkPath [chr_slash] (p :: ps).
Proof.
  intro H. inversion H as [|? ? Hp _]; subst.
  destruct (@join_plain_head _ ps Hp) as (c & r & Hj & Hc).
  unfold parse_path, splitroot. cbn [app]. rewrite N.eqb_refl.
  cbn [lstrip_slash]. rewrite N.eqb_refl. rewrite Hj.
  cbn [lstrip_slash]. apply N.eqb_neq in Hc. rewrite Hc.
  cbn [List.length]. rewrite Nat.sub_succ_l, Nat.sub_diag by lia. cbn [Nat.eqb].
  rewrite <- Hj, split_join; [|discriminate|now apply plain_parts_no_slash].
  now rewrite filter_keep_plain.
Qed.

Lemma parse_path_plain (p : str) (ps : list str) :
  Forall plain_part (p :: ps) ->
  parse_path (join [chr_slash] (p :: ps)) = mkPath [] (p :: ps).
Proof.
  intro H. inversion H as [|? ? Hp _]; subst.
  destruct (@join_plain_head _ ps Hp) as (c & r & Hj & Hc).
  rewrite parse_path_relative.
  - rewrite split_join; [|discriminate|now apply plain_parts_no_slash].
    now rewrite filter_keep_plain.
  - intros r' Hr. rewrite Hj in Hr. injection Hr as -> _. now apply Hc.
Qed.

(** Where [run] writes, for a packages directory given by an absolute path:
    the components of its parent, then the components of the resource
    path. *)
Lemma target_file_parts (h : Host) (dirs uparts : list str) (pk : str) :
  packages_path h = [chr_slash] ++ join [chr_slash] (dirs ++ [pk]) ->
  Forall plain_part (dirs ++ pk :: uparts) -> uparts <> [] ->
  target_file h (join [chr_slash] uparts) =
    [chr_slash] ++ join [chr_slash] (dirs ++ uparts).
Proof.
  intros Hp Hall Hne. unfold target_file, path_join. rewrite Hp.
  apply Forall_app in Hall as [Hd Hr].
  inversion Hr as [|? ? Hpk Hu]; subst.
  assert (Hdt : Forall plain_part (dirs ++ [pk])).
  { apply Forall_app. split; [assumption|]. now constructor. }
  destruct (dirs ++ [pk]) as [|x xs] eqn:Ex; [now destruct dirs|].
  rewrite (@parse_path_absolute _ _ Hdt).
  destruct uparts as [|p ps]; [contradiction|].
  rewrite (@parse_path_plain _ _ Hu).
  cbn [p_root p_parts path_parent]. rewrite <- Ex, removelast_last.
  unfold fspath. cbn [p_root p_parts app].
  reflexivity.
Qed.

(** * The claims *)

(** ** The patcher keeps everything but the tokens *)

(** C1. When both paths resolve and [run] writes, the text written is the
    text loaded with nothing changed but tokens.  Every change stands at a
    match of the pattern of [run] in the old text: what group 1 of the match
    holds, the [extends:] directive with its white space and its dash
    marker, is written again as it is, and only the rest of the match, the
    token, gives way to other text.  Every other character, line ends
    included, is the same.  By [otc_keeps_directive] a text in which a dash
    marker was overwritten is not in this relation with the old one. *)
Theorem patch_changes_only_tokens (h : Host) (syntax_file dialect_file : str)
    (u d : Syntax) (old file enc nl data : str) :
  syntax_from_path h syntax_file = Some u ->
  syntax_from_path h dialect_file = Some d ->
  resource_path (path d) ->
  load_resource h (path u) = Some old ->
  In (OpenWrite file enc nl data) (fst (run h syntax_file dialect_file)) ->
  only_tokens_changed true old (written_text nl data).
Proof.
  intros Hu Hd Hp Hl Hin. unfold run in Hin. rewrite Hu, Hd, Hl in Hin.
  unfold new_content_of, re_sub, re_subn in Hin.
  rewrite (parse_run_template _ _ (starts_packages_not_digit Hp)) in Hin.
  destruct (parse_template (py_isidentifier h) (py_int h) 1 (path d)) as [tl|e];
    [|destruct Hin].
  pose proof (@sub_loop_frame tl (List.length old) old true (le_n _)) as Hf.
  destruct (sub_loop run_pattern (TGroup 1 :: tl) true 0 old) as [out cnt].
  cbn [fst] in Hf.
  destruct (str_eqb old out); [destruct Hin|].
  destruct (can_open_w h (target_file h (path u))); [|destruct Hin].
  destruct Hin as [Heq|[]]. injection Heq as <- <- <- <-.
  now rewrite written_text_lf.
Qed.

Lemma patch_changes_only_tokens_witness :
  only_tokens_changed true (sql_text mysql_path)
    (written_text [chr_nl] (sql_text pg_path)).
Proof.
  apply (@patch_changes_only_tokens (demo_host registry (sql_text mysql_path))
           sql_path pg_path sql_syntax pg_syntax (sql_text mysql_path)
           demo_file (lit "utf-8") [chr_nl] (sql_text pg_path));
    try reflexivity.
  vm_compute. left. reflexivity.
Defined.

(** ** The enumerator *)




(** What the amended statement leaves out: a dialect whose path has a
    space.  The umbrella's line names it, it is registered, visible and in
    scope, and no candidate is marked, because the group holds the path up
    to the space only. *)
Lemma spaced_path_is_not_selected :
  list_items (demo_host registry (sql_text tsql_path)) sql_syntax =
    Ok [mkItem (lit "MySQL") mysql_path KIND_AMBIGUOUS;
        mkItem (lit "PostgreSQL") pg_path KIND_AMBIGUOUS;
        mkItem (lit "TSQL") tsql_path KIND_AMBIGUOUS]
  /\ exists m, search list_pattern (sql_text tsql_path) = Some m
               /\ group1 (sql_text tsql_path) m = lit "Packages/SQL/SQL".
Proof.
  split; [vm_compute; reflexivity|].
  eexists. split; vm_compute; reflexivity.
Qed.

(** C3. For an umbrella whose scope has at least two levels and whose text
    loads, the list is made of the registered syntaxes that are not hidden,
    are not the umbrella and whose scope starts, as a string, with the first
    two levels of the umbrella's scope, and of nothing else. *)
Theorem candidates_are_dialects (h : Host) (u : Syntax) (content s0 s1 : str)
    (segs : list str) :
  split_on chr_dot (scope u) = s0 :: s1 :: segs ->
  load_resource h (path u) = Some content ->
  exists kept,
    list_items h u = Ok (map (item_for (selected_of h content)) kept)
    /\ (forall s, In s kept ->
          In s (list_syntaxes h) /\ hidden s = false /\ path s <> path u
          /\ startswith (scope s) (s0 ++ [chr_dot] ++ s1) = true)
    /\ (forall it, In it (map (item_for (selected_of h content)) kept) ->
          value it <> path u).
Proof.
  intros Hsp Hl.
  assert (Hf : filter_scope (scope u) = Ok (s0 ++ [chr_dot] ++ s1)).
  { unfold filter_scope. now rewrite Hsp. }
  exists (filter (keep_syntax u (s0 ++ [chr_dot] ++ s1)) (list_syntaxes h)).
  split; [now apply list_items_eq|].
  assert (Hk : forall s,
    In s (filter (keep_syntax u (s0 ++ [chr_dot] ++ s1)) (list_syntaxes h)) ->
    In s (list_syntaxes h) /\ hidden s = false /\ path s <> path u
    /\ startswith (scope s) (s0 ++ [chr_dot] ++ s1) = true).
  { intros s Hs. apply filter_In in Hs as [Hin Hk]. unfold keep_syntax in Hk.
    apply andb_true_iff in Hk as [Hk Hsc]. apply andb_true_iff in Hk as [Hh He].
    apply negb_true_iff in Hh, He. unfold syntax_eqb in He.
    apply str_eqb_neq in He. now repeat split. }
  split; [exact Hk|].
  intros it Hit. apply in_map_iff in Hit as (s & <- & Hs).
  cbn [value item_for]. now apply Hk in Hs.
Qed.

Lemma candidates_are_dialects_witness :
  exists kept,
    list_items (demo_host registry (sql_text mysql_path)) sql_syntax =
      Ok (map (item_for (selected_of (demo_host registry (sql_text mysql_path))
                           (sql_text mysql_path))) kept)
    /\ (forall s, In s kept ->
          In s (list_syntaxes (demo_host registry (sql_text mysql_path)))
          /\ hidden s = false /\ path s <> path sql_syntax
          /\ startswith (scope s) (lit "source" ++ [chr_dot] ++ lit "sql") = true)
    /\ (forall it,
          In it (map (item_for (selected_of (demo_host registry (sql_text mysql_path))
                                  (sql_text mysql_path))) kept) ->
          value it <> path sql_syntax).
Proof.
  apply (@candidates_are_dialects (demo_host registry (sql_text mysql_path))
           sql_syntax (sql_text mysql_path) (lit "source") (lit "sql") []);
    reflexivity.
Defined.

(** C9. An umbrella whose scope has fewer than two levels makes the
    enumerator fail at once with [IndexError]: no list is computed. *)
Theorem short_scope_fails_fast (h : Host) (u : Syntax) :
  List.length (split_on chr_dot (scope u)) < 2 ->
  list_items h u = Raise IndexError.
Proof.
  intro H. unfold list_items, filter_scope.
  destruct (split_on chr_dot (scope u)) as [|s0 [|s1 segs]]; try reflexivity.
  cbn [List.length] in H. lia.
Qed.

Lemma short_scope_fails_fast_witness :
  list_items (demo_host registry (sql_text mysql_path)) flat_syntax = Raise IndexError.
Proof.
  apply (@short_scope_fails_fast (demo_host registry (sql_text mysql_path)) flat_syntax).
  vm_compute. lia.
Defined.

(** ** The patcher *)

(** C6. When the umbrella path or the dialect path does not resolve, [run]
    prints one message that holds the offending path, returns, and leaves
    every file as it was: nothing is loaded and nothing is written. *)
Theorem invalid_path_is_reported (h : Host) (syntax_file dialect_file : str) :
  syntax_from_path h syntax_file = None \/ syntax_from_path h dialect_file = None ->
  exists bad,
    (bad = syntax_file \/ bad = dialect_file)
    /\ syntax_from_path h bad = None
    /\ (exists pre post,
          run h syntax_file dialect_file = ([Print (pre ++ bad ++ post)], Ok tt))
    /\ (run h syntax_file dialect_file = ([Print (msg_no_target syntax_file)], Ok tt)
        \/ run h syntax_file dialect_file = ([Print (msg_no_syntax dialect_file)], Ok tt))
    /\ forall f, apply_effects f (fst (run h syntax_file dialect_file)) = f.
Proof.
  intro H. unfold run.
  destruct (syntax_from_path h syntax_file) as [u|] eqn:Eu.
  - destruct H as [H|H]; [discriminate|]. rewrite H.
    exists dialect_file. split; [now right|]. split; [assumption|]. split.
    + exists (lit "Error: " ++ [chr_quote]), ([chr_quote] ++ lit " is no valid syntax!").
      unfold msg_no_syntax. now rewrite <- !app_assoc.
    + split; [now right | reflexivity].
  - exists syntax_file. split; [now left|]. split; [assumption|]. split.
    + exists (lit "Error: " ++ [chr_quote]),
        ([chr_quote] ++ lit " is no valid target syntax!").
      unfold msg_no_target. now rewrite <- !app_assoc.
    + split; [now left | reflexivity].
Qed.

Lemma invalid_path_is_reported_witness :
  exists bad,
    (bad = lit "BadPath" \/ bad = pg_path)
    /\ syntax_from_path (demo_host registry (sql_text mysql_path)) bad = None
    /\ (exists pre post,
          run (demo_host registry (sql_text mysql_path)) (lit "BadPath") pg_path =
            ([Print (pre ++ bad ++ post)], Ok tt))
    /\ (run (demo_host registry (sql_text mysql_path)) (lit "BadPath") pg_path =
          ([Print (msg_no_target (lit "BadPath"))], Ok tt)
        \/ run (demo_host registry (sql_text mysql_path)) (lit "BadPath") pg_path =
          ([Print (msg_no_syntax pg_path)], Ok tt))
    /\ forall f,
         apply_effects f
           (fst (run (demo_host registry (sql_text mysql_path)) (lit "BadPath") pg_path)) = f.
Proof.
  apply (@invalid_path_is_reported (demo_host registry (sql_text mysql_path))
           (lit "BadPath") pg_path).
  left. reflexivity.
Defined.

(** C7. In a text where at most one line begins with [extends:], let a line
    be a directive ([extends:], white space, and the dash marker with its
    white space when there is one) followed by a token.  With a dialect path
    that is a resource path without a backslash, the new text is the old
    one with that token, and nothing else, replaced by the dialect path: the
    text before the line, the directive with its dash marker and the text
    after the token stay, and one substitution is made.  In any text where
    at most one line begins with [extends:], no more than one substitution
    is made. *)
Theorem patch_replaces_the_token (h : Host) (dialect_path pre d tok rest : str) :
  resource_path dialect_path -> ~ In chr_backslash dialect_path ->
  last_nl true pre = true ->
  directive_line d tok rest ->
  count_extends true (pre ++ d ++ tok ++ rest) <= 1 ->
  re_subn h run_pattern 1 (run_template dialect_path) (pre ++ d ++ tok ++ rest) =
    Ok (pre ++ d ++ dialect_path ++ rest, 1)
  /\ new_content_of h dialect_path (pre ++ d ++ tok ++ rest) =
       Ok (pre ++ d ++ dialect_path ++ rest)
  /\ forall old out n,
       count_extends true old <= 1 ->
       re_subn h run_pattern 1 (run_template dialect_path) old = Ok (out, n) ->
       n <= 1.
Proof.
  intros Hp Hb Hbol Hl Hc.
  assert (Hsub : re_subn h run_pattern 1 (run_template dialect_path)
                   (pre ++ d ++ tok ++ rest) = Ok (pre ++ d ++ dialect_path ++ rest, 1)).
  { rewrite (@re_subn_plain h _ _ Hp Hb), (@sub_loop_line _ _ _ _ _ Hbol Hl Hc).
    now rewrite expand_group1, expand_plain, <- app_assoc. }
  split; [exact Hsub|]. split.
  - unfold new_content_of, re_sub. now rewrite Hsub.
  - intros old out n Hold. rewrite (@re_subn_plain h _ _ Hp Hb).
    intro H. injection H as H.
    pose proof (@sub_loop_count (TGroup 1 :: map (fun c => TLit [c]) dialect_path)
                  (List.length old) old true (le_n _)) as Hn.
    rewrite H in Hn. cbn [snd] in Hn. lia.
Qed.

Lemma patch_replaces_the_token_witness :
  re_subn (demo_host registry (sql_text mysql_path)) run_pattern 1
    (run_template pg_path) (sql_text mysql_path) = Ok (sql_text pg_path, 1)
  /\ new_content_of (demo_host registry (sql_text mysql_path)) pg_path
       (sql_text mysql_path) = Ok (sql_text pg_path)
  /\ forall old out n,
       count_extends true old <= 1 ->
       re_subn (demo_host registry (sql_text mysql_path)) run_pattern 1
         (run_template pg_path) old = Ok (out, n) ->
       n <= 1.
Proof.
  apply (@patch_replaces_the_token (demo_host registry (sql_text mysql_path))
           pg_path sql_head (kw_extends ++ lit " ") mysql_path sql_tail).
  - reflexivity.
  - vm_compute. intuition discriminate.
  - reflexivity.
  - apply line_plain.
    + split; [discriminate|repeat constructor].
    + split; [discriminate|repeat constructor].
    + reflexivity.
    + intros [H _]. discriminate H.
  - vm_compute. lia.
Defined.

(** C8. When both paths resolve, the text loads, the new text differs from
    it and the file can be opened, [run] makes one write and returns.  With
    the packages directory at an absolute path, the file written is the
    resource path of the umbrella below the parent of the packages
    directory: the components of that parent followed by the components of
    the resource path.  It is opened as UTF-8, line feeds are written as
    they are, the file holds the new text afterwards, whatever it held
    before, and no other file changes. *)
Theorem patch_writes_the_umbrella_file (h : Host) (syntax_file dialect_file : str)
    (u d : Syntax) (old new : str) (dirs uparts : list str) (pk : str) :
  syntax_from_path h syntax_file = Some u ->
  syntax_from_path h dialect_file = Some d ->
  load_resource h (path u) = Some old ->
  new_content_of h (path d) old = Ok new ->
  new <> old ->
  packages_path h = [chr_slash] ++ join [chr_slash] (dirs ++ [pk]) ->
  path u = join [chr_slash] uparts ->
  Forall plain_part (dirs ++ pk :: uparts) -> uparts <> [] ->
  can_open_w h ([chr_slash] ++ join [chr_slash] (dirs ++ uparts)) = true ->
  run h syntax_file dialect_file =
    ([OpenWrite ([chr_slash] ++ join [chr_slash] (dirs ++ uparts))
        (lit "utf-8") [chr_nl] new], Ok tt)
  /\ forall f,
       apply_effects f (fst (run h syntax_file dialect_file))
         ([chr_slash] ++ join [chr_slash] (dirs ++ uparts)) = Some new
       /\ forall p, p <> [chr_slash] ++ join [chr_slash] (dirs ++ uparts) ->
            apply_effects f (fst (run h syntax_file dialect_file)) p = f p.
Proof.
  intros Hu Hd Hl Hn Hne Hpk Hpu Hall Hparts Hw.
  assert (Hfile : target_file h (path u) =
                  [chr_slash] ++ join [chr_slash] (dirs ++ uparts)).
  { rewrite Hpu. now apply (@target_file_parts h dirs uparts pk). }
  assert (Hrun : run h syntax_file dialect_file =
            ([OpenWrite ([chr_slash] ++ join [chr_slash] (dirs ++ uparts))
                (lit "utf-8") [chr_nl] new], Ok tt)).
  { unfold run. rewrite Hu, Hd, Hl, Hn, Hfile.
    assert (E : str_eqb old new = false) by (apply str_eqb_neq; congruence).
    now rewrite E, Hw. }
  split; [exact Hrun|].
  intro f. rewrite Hrun. cbn [fst apply_effects fold_left apply_effect]. split.
  - now rewrite str_eqb_refl.
  - intros p Hp'. apply str_eqb_neq in Hp'. now rewrite Hp'.
Qed.

Lemma patch_writes_the_umbrella_file_witness :
  run (demo_host registry (sql_text mysql_path)) sql_path pg_path =
    ([OpenWrite demo_file (lit "utf-8") [chr_nl] (sql_text pg_path)], Ok tt)
  /\ forall f,
       apply_effects f
         (fst (run (demo_host registry (sql_text mysql_path)) sql_path pg_path))
         demo_file = Some (sql_text pg_path)
       /\ forall p, p <> demo_file ->
            apply_effects f
              (fst (run (demo_host registry (sql_text mysql_path)) sql_path pg_path)) p
            = f p.
Proof.
  apply (@patch_writes_the_umbrella_file (demo_host registry (sql_text mysql_path))
           sql_path pg_path sql_syntax pg_syntax (sql_text mysql_path) (sql_text pg_path)
           [lit "home"; lit "user"; lit ".config"; lit "sublime-text"]
           [lit "Packages"; lit "SQL"; lit "SQL.sublime-syntax"] (lit "Packages"));
    try reflexivity.
  - vm_compute. discriminate.
  - repeat constructor; vm_compute; intuition discriminate.
  - discriminate.
Defined.

(** C10. When both paths resolve and the pattern matches nowhere in the
    umbrella's text, [run] has no effect at all, so every file stays as it
    was: a substitution that is made returns the text unchanged, and with a
    dialect path that is a resource path without a backslash the call
    returns after the comparison. *)
Theorem patch_without_directive_is_noop (h : Host) (syntax_file dialect_file : str)
    (u d : Syntax) (old : str) :
  syntax_from_path h syntax_file = Some u ->
  syntax_from_path h dialect_file = Some d ->
  load_resource h (path u) = Some old ->
  search run_pattern old = None ->
  fst (run h syntax_file dialect_file) = []
  /\ (forall f, apply_effects f (fst (run h syntax_file dialect_file)) = f)
  /\ (forall new, new_content_of h (path d) old = Ok new -> new = old)
  /\ (resource_path (path d) -> ~ In chr_backslash (path d) ->
      run h syntax_file dialect_file = ([], Ok tt)).
Proof.
  intros Hu Hd Hl Hs.
  assert (Hnew : forall new, new_content_of h (path d) old = Ok new -> new = old).
  { intros new H. unfold new_content_of, re_sub, re_subn in H.
    destruct (parse_template (py_isidentifier h) (py_int h) 1 (run_template (path d)))
      as [tpl|e]; [|discriminate].
    rewrite (@sub_loop_no_match run_pattern tpl old true 0 Hs) in H. congruence. }
  assert (Hfst : fst (run h syntax_file dialect_file) = []).
  { unfold run. rewrite Hu, Hd, Hl.
    destruct (new_content_of h (path d) old) as [new|e] eqn:En; [|reflexivity].
    rewrite (Hnew new eq_refl), str_eqb_refl. reflexivity. }
  split; [exact Hfst|]. split; [intro f; now rewrite Hfst|]. split; [exact Hnew|].
  intros Hp Hb. unfold run. rewrite Hu, Hd, Hl. unfold new_content_of, re_sub.
  rewrite (@re_subn_plain h _ old Hp Hb).
  rewrite (@sub_loop_no_match run_pattern _ old true 0 Hs).
  now rewrite str_eqb_refl.
Qed.

Lemma patch_without_directive_is_noop_witness :
  fst (run (demo_host registry plain_text) sql_path pg_path) = []
  /\ (forall f,
        apply_effects f (fst (run (demo_host registry plain_text) sql_path pg_path)) = f)
  /\ (forall new,
        new_content_of (demo_host registry plain_text) (path pg_syntax) plain_text = Ok new ->
        new = plain_text)
  /\ (resource_path (path pg_syntax) -> ~ In chr_backslash (path pg_syntax) ->
      run (demo_host registry plain_text) sql_path pg_path = ([], Ok tt)).
Proof.
  apply (@patch_without_directive_is_noop (demo_host registry plain_text)
           sql_path pg_path sql_syntax pg_syntax plain_text); reflexivity.
Defined.

(** ** Where the code parts from the specification *)

(** C4 does not hold for a dialect whose path has a space: the first patch
    writes the path, the second one reads only its first word as the token
    and writes again, a different text. *)
Theorem second_patch_rewrites_spaced_path :
  let h1 := demo_host registry (sql_text mysql_path) in
  let h2 := reloaded h1 sql_path (sql_text tsql_path) in
  run h1 sql_path tsql_path =
    ([OpenWrite demo_file (lit "utf-8") [chr_nl] (sql_text tsql_path)], Ok tt)
  /\ run h2 sql_path tsql_path =
       ([OpenWrite demo_file (lit "utf-8") [chr_nl]
           (sql_text (tsql_path ++ lit " (TSQL).sublime-syntax"))], Ok tt)
  /\ sql_text (tsql_path ++ lit " (TSQL).sublime-syntax") <> sql_text tsql_path.
Proof.
  cbv zeta. split; [vm_compute; reflexivity|]. split; [vm_compute; reflexivity|].
  vm_compute. discriminate.
Qed.

(** C5 does not hold for a dialect whose path has a space: after the patch
    to it, the patch to another dialect and the patch back, the [extends:]
    line holds more than the path. *)
Theorem round_trip_corrupts_spaced_path :
  let h1 := demo_host registry (sql_text mysql_path) in
  let h2 := reloaded h1 sql_path (sql_text tsql_path) in
  let h3 := reloaded h2 sql_path (sql_text (pg_path ++ lit " (TSQL).sublime-syntax")) in
  written (run h1 sql_path tsql_path) = Some (sql_text tsql_path)
  /\ written (run h2 sql_path pg_path) =
       Some (sql_text (pg_path ++ lit " (TSQL).sublime-syntax"))
  /\ written (run h3 sql_path tsql_path) =
       Some (sql_text (tsql_path ++ lit " (TSQL).sublime-syntax"))
  /\ sql_text (tsql_path ++ lit " (TSQL).sublime-syntax") <> sql_text tsql_path.
Proof.
  cbv zeta. repeat split; try (vm_compute; reflexivity).
  vm_compute. discriminate.
Qed.

(** * Further properties *)

(** ** The two patterns *)

(** X1. The enumerator and the patcher look at the same place: the search
    of [list_items] succeeds exactly when the one of [run] does, on the same
    span, and the group the enumerator reads is the token the patcher
    replaces. *)
Theorem enumerator_reads_the_patched_token (s : str) :
  search list_pattern s = option_map as_list_match (search run_pattern s)
  /\ forall m, search run_pattern s = Some m ->
       group1 s (as_list_match m) = matched_token s m.
Proof.
  split; [apply search_from_alike | apply group1_as_list_match].
Qed.

(** ** How many substitutions *)

(** X2. Whatever the dialect path, [re.sub] makes at most as many
    substitutions as the text has lines that begin with [extends:]. *)
Theorem substitutions_bounded_by_directives (h : Host) (dialect_path old out : str)
    (n : nat) :
  re_subn h run_pattern 1 (run_template dialect_path) old = Ok (out, n) ->
  n <= count_extends true old.
Proof.
  unfold re_subn.
  destruct (parse_template (py_isidentifier h) (py_int h) 1 (run_template dialect_path))
    as [tpl|e]; [|discriminate].
  intro H. injection H as H.
  pose proof (@sub_loop_count tpl (List.length old) old true (le_n _)) as Hc.
  rewrite H in Hc. exact Hc.
Qed.

Lemma substitutions_bounded_by_directives_witness :
  1 <= count_extends true (sql_text mysql_path).
Proof.
  apply (@substitutions_bounded_by_directives (demo_host registry (sql_text mysql_path))
           pg_path (sql_text mysql_path) (sql_text pg_path) 1).
  vm_compute. reflexivity.
Defined.

(** ** What [run] may do *)

(** X3. [run] writes at most once, and only the umbrella's file: a write
    happens only when both paths resolve and the substitution gave a text
    other than the one loaded; it is then the only effect, goes to the
    umbrella's target file, and the call returns. *)
Theorem run_writes_only_a_changed_umbrella (h : Host) (syntax_file dialect_file : str)
    (e : effect) :
  In e (fst (run h syntax_file dialect_file)) ->
  is_write e = true ->
  exists u d old new,
    syntax_from_path h syntax_file = Some u
    /\ syntax_from_path h dialect_file = Some d
    /\ load_resource h (path u) = Some old
    /\ new_content_of h (path d) old = Ok new
    /\ new <> old
    /\ e = OpenWrite (target_file h (path u)) (lit "utf-8") [chr_nl] new
    /\ run h syntax_file dialect_file = ([e], Ok tt).
Proof.
  unfold run.
  destruct (syntax_from_path h syntax_file) as [u|] eqn:Eu.
  2:{ intros [<-|[]] Hw. discriminate. }
  destruct (syntax_from_path h dialect_file) as [d|] eqn:Ed.
  2:{ intros [<-|[]] Hw. discriminate. }
  destruct (load_resource h (path u)) as [old|] eqn:El; [|intros []].
  destruct (new_content_of h (path d) old) as [new|ex] eqn:En; [|intros []].
  destruct (str_eqb old new) eqn:Eq; [intros []|].
  destruct (can_open_w h (target_file h (path u))); [|intros []].
  intros [<-|[]] _. exists u, d, old, new.
  apply str_eqb_neq in Eq. repeat split; try reflexivity; try assumption; congruence.
Qed.

Lemma run_writes_only_a_changed_umbrella_witness :
  exists u d old new,
    syntax_from_path (demo_host registry (sql_text mysql_path)) sql_path = Some u
    /\ syntax_from_path (demo_host registry (sql_text mysql_path)) pg_path = Some d
    /\ load_resource (demo_host registry (sql_text mysql_path)) (path u) = Some old
    /\ new_content_of (demo_host registry (sql_text mysql_path)) (path d) old = Ok new
    /\ new <> old
    /\ OpenWrite demo_file (lit "utf-8") [chr_nl] (sql_text pg_path) =
         OpenWrite (target_file (demo_host registry (sql_text mysql_path)) (path u))
           (lit "utf-8") [chr_nl] new
    /\ run (demo_host registry (sql_text mysql_path)) sql_path pg_path =
         ([OpenWrite demo_file (lit "utf-8") [chr_nl] (sql_text pg_path)], Ok tt).
Proof.
  apply (@run_writes_only_a_changed_umbrella (demo_host registry (sql_text mysql_path))
           sql_path pg_path (OpenWrite demo_file (lit "utf-8") [chr_nl] (sql_text pg_path))).
  - vm_compute. left. reflexivity.
  - reflexivity.
Defined.

(** ** More on the candidate list *)

Lemma list_items_inv (h : Host) (u : Syntax) (items : list ListInputItem) :
  list_items h u = Ok items ->
  exists fscope content,
    filter_scope (scope u) = Ok fscope
    /\ load_resource h (path u) = Some content
    /\ items = map (item_for (selected_of h content))
                 (filter (keep_syntax u fscope) (list_syntaxes h)).
Proof.
  unfold list_items.
  destruct (filter_scope (scope u)) as [fscope|e] eqn:Ef; [|discriminate].
  destruct (load_resource h (path u)) as [content|] eqn:El; [|discriminate].
  rewrite fold_items. intro H. injection H as <-. now exists fscope, content.
Qed.

Lemma map_value_item_for sel (l : list Syntax) :
  map value (map (item_for sel) l) = map path l.
Proof. rewrite map_map. reflexivity. Qed.

Lemma map_text_item_for sel (l : list Syntax) :
  map text (map (item_for sel) l) = map name l.
Proof. rewrite map_map. reflexivity. Qed.

(** X4. A candidate is marked only when the umbrella's text has a match
    whose token resolves, and it is then the candidate of the resolved path.
    Without a match, or with a token that does not resolve, no candidate is
    marked. *)
Theorem marked_candidate_is_the_resolved_one (h : Host) (u : Syntax)
    (items : list ListInputItem) (it : ListInputItem) :
  list_items h u = Ok items ->
  In it items ->
  marked it ->
  exists content m d,
    load_resource h (path u) = Some content
    /\ search list_pattern content = Some m
    /\ syntax_from_path h (group1 content m) = Some d
    /\ value it = path d.
Proof.
  intros Hl Hin Hm.
  apply list_items_inv in Hl as (f & content & _ & Hload & ->).
  apply in_map_iff in Hin as (s & <- & _).
  apply marked_item_for in Hm. unfold selected_of in Hm.
  destruct (search list_pattern content) as [m|] eqn:Es; [|discriminate].
  destruct (syntax_from_path h (group1 content m)) as [d|] eqn:Ed; [|discriminate].
  exists content, m, d. repeat split; try assumption.
  cbn [is_selected] in Hm. unfold syntax_eqb in Hm. now apply str_eqb_eq in Hm.
Qed.

Lemma marked_candidate_is_the_resolved_one_witness :
  exists content m d,
    load_resource (demo_host registry (sql_text mysql_path)) (path sql_syntax) = Some content
    /\ search list_pattern content = Some m
    /\ syntax_from_path (demo_host registry (sql_text mysql_path)) (group1 content m) = Some d
    /\ value (mkItem (lit "MySQL") mysql_path selected_kind) = path d.
Proof.
  apply (@marked_candidate_is_the_resolved_one
           (demo_host registry (sql_text mysql_path)) sql_syntax
           [mkItem (lit "MySQL") mysql_path selected_kind;
            mkItem (lit "PostgreSQL") pg_path KIND_AMBIGUOUS;
            mkItem (lit "TSQL") tsql_path KIND_AMBIGUOUS]).
  - vm_compute. reflexivity.
  - left. reflexivity.
  - reflexivity.
Defined.

(** X5. In a registry that lists each path once, at most one candidate is
    marked: two marked entries of the list are the same entry. *)
Theorem at_most_one_marked (h : Host) (u : Syntax) (items : list ListInputItem)
    (i j : nat) (x y : ListInputItem) :
  NoDup (map path (list_syntaxes h)) ->
  list_items h u = Ok items ->
  nth_error items i = Some x -> marked x ->
  nth_error items j = Some y -> marked y ->
  i = j.
Proof.
  intros Hnd Hl Hi Hx Hj Hy.
  apply list_items_inv in Hl as (f & content & _ & _ & ->).
  pose proof (@NoDup_map_filter (keep_syntax u f) _ Hnd) as Hnd'.
  set (kept := filter (keep_syntax u f) (list_syntaxes h)) in *.
  rewrite nth_error_map in Hi, Hj.
  destruct (nth_error kept i) as [si|] eqn:Ei; [|discriminate].
  destruct (nth_error kept j) as [sj|] eqn:Ej; [|discriminate].
  injection Hi as <-. injection Hj as <-.
  apply marked_item_for in Hx, Hy.
  destruct (selected_of h content) as [sel|]; [|discriminate].
  cbn [is_selected] in Hx, Hy. unfold syntax_eqb in Hx, Hy.
  apply str_eqb_eq in Hx, Hy.
  rewrite NoDup_nth_error in Hnd'. apply Hnd'.
  - rewrite length_map. apply nth_error_Some. now rewrite Ei.
  - rewrite !nth_error_map, Ei, Ej. cbn. congruence.
Qed.

Lemma at_most_one_marked_witness : 0 = 0.
Proof.
  apply (@at_most_one_marked (demo_host registry (sql_text mysql_path)) sql_syntax
           [mkItem (lit "MySQL") mysql_path selected_kind;
            mkItem (lit "PostgreSQL") pg_path KIND_AMBIGUOUS;
            mkItem (lit "TSQL") tsql_path KIND_AMBIGUOUS]
           0 0 (mkItem (lit "MySQL") mysql_path selected_kind)
           (mkItem (lit "MySQL") mysql_path selected_kind));
    try reflexivity.
  repeat constructor; vm_compute; intuition discriminate.
Defined.

(** ** Scopes *)

Lemma split_on_length sep (s : str) :
  List.length (split_on sep s) = S (occurrences sep s).
Proof.
  unfold occurrences. induction s as [|c s IH]; [reflexivity|].
  cbn [split_on filter]. rewrite (N.eqb_sym sep c).
  destruct (N.eqb c sep); cbn [List.length]; [now rewrite IH|].
  destruct (split_on sep s) as [|p ps]; [discriminate IH|exact IH].
Qed.

Lemma join_split sep (s : str) : join [sep] (split_on sep s) = s.
Proof.
  induction s as [|c s IH]; [reflexivity|]. cbn [split_on].
  pose proof (split_on_length sep s) as Hl.
  destruct (split_on sep s) as [|p ps]; [discriminate Hl|].
  destruct (N.eqb c sep) eqn:E.
  - apply N.eqb_eq in E. subst c.
    change (join [sep] ([] :: p :: ps)) with ([] ++ [sep] ++ join [sep] (p :: ps)).
    now rewrite IH.
  - destruct ps as [|q qs]; cbn [join app] in IH |- *; now rewrite <- IH.
Qed.

Lemma split_on_pieces sep (s : str) :
  Forall (fun p => ~ In sep p) (split_on sep s).
Proof.
  induction s as [|c s IH]; [repeat constructor; intros []|]. cbn [split_on].
  destruct (N.eqb c sep) eqn:E.
  - constructor; [intros []|exact IH].
  - destruct (split_on sep s) as [|p ps]; [repeat constructor|].
    + intros [->|[]]. now rewrite N.eqb_refl in E.
    + inversion IH as [|? ? Hp Hps]; subst. constructor; [|assumption].
      intros [->|Hin]; [now rewrite N.eqb_refl in E|contradiction].
Qed.

Lemma occurrences_zero c (s : str) : occurrences c s = 0 <-> ~ In c s.
Proof.
  unfold occurrences. induction s as [|x s IH]; [split; [intros _ []|reflexivity]|].
  cbn [filter In]. destruct (N.eqb c x) eqn:E.
  - apply N.eqb_eq in E. subst x. split; [discriminate|]. intro H. destruct H. now left.
  - apply N.eqb_neq in E. rewrite IH. split.
    + intros H [Hx|Hin]; [congruence|contradiction].
    + intros H Hin. apply H. now right.
Qed.

Lemma occurrences_app c (a b : str) :
  occurrences c (a ++ b) = occurrences c a + occurrences c b.
Proof. unfold occurrences. now rewrite filter_app, length_app. Qed.

(** X6. The enumerator fails with [IndexError] exactly when the umbrella's
    scope contains no dot, whatever the host. *)
Theorem index_error_iff_no_dot (h : Host) (u : Syntax) :
  list_items h u = Raise IndexError <-> ~ In chr_dot (scope u).
Proof.
  rewrite <- occurrences_zero.
  pose proof (split_on_length chr_dot (scope u)) as Hl.
  unfold list_items, filter_scope.
  destruct (split_on chr_dot (scope u)) as [|s0 [|s1 segs]]; cbn [nth_error List.length] in *.
  - discriminate Hl.
  - split; [intros _; lia|reflexivity].
  - split; [|intro H; rewrite H in Hl; discriminate Hl].
    destruct (load_resource h (path u)); discriminate.
Qed.

(** X7. The filter scope is a prefix of the umbrella's scope and has one
    dot.  So the scope test never removes a syntax whose scope is the
    umbrella's own: a registered syntax that is not hidden, has the
    umbrella's scope and another path is always a candidate. *)
Theorem same_scope_syntax_is_listed (h : Host) (u s : Syntax) (fscope : str)
    (items : list ListInputItem) :
  filter_scope (scope u) = Ok fscope ->
  list_items h u = Ok items ->
  In s (list_syntaxes h) -> hidden s = false -> path s <> path u ->
  scope s = scope u ->
  startswith (scope u) fscope = true
  /\ occurrences chr_dot fscope = 1
  /\ In (path s) (map value items).
Proof.
  intros Hf Hl Hin Hh Hp Hs.
  assert (Hpre : startswith (scope u) fscope = true /\ occurrences chr_dot fscope = 1).
  { unfold filter_scope in Hf.
    pose proof (join_split chr_dot (scope u)) as Hj.
    pose proof (split_on_pieces chr_dot (scope u)) as Hpc.
    destruct (split_on chr_dot (scope u)) as [|s0 [|s1 segs]];
      cbn [nth_error] in Hf; try discriminate.
    injection Hf as <-. inversion Hpc as [|? ? H0 Hpc']; subst.
    inversion Hpc' as [|? ? H1 _]; subst. split.
    - apply startswith_app. rewrite <- Hj.
      destruct segs as [|s2 segs]; cbn [join].
      + exists []. now rewrite !app_nil_r.
      + exists ([chr_dot] ++ join [chr_dot] (s2 :: segs)). now rewrite <- !app_assoc.
    - rewrite !occurrences_app.
      rewrite (proj2 (occurrences_zero chr_dot s0) H0).
      change (chr_dot :: s1) with ([chr_dot] ++ s1).
      rewrite occurrences_app, (proj2 (occurrences_zero chr_dot s1) H1). reflexivity. }
  destruct Hpre as [Hsw Hocc]. split; [assumption|]. split; [assumption|].
  apply list_items_inv in Hl as (f & content & Hf' & _ & ->).
  rewrite Hf in Hf'. injection Hf' as <-.
  rewrite map_value_item_for. apply in_map. apply filter_In. split; [assumption|].
  unfold keep_syntax, syntax_eqb. rewrite Hh, Hs, Hsw.
  apply str_eqb_neq in Hp. now rewrite Hp.
Qed.

Lemma same_scope_syntax_is_listed_witness :
  startswith (scope sql_syntax) (lit "source.sql") = true
  /\ occurrences chr_dot (lit "source.sql") = 1
  /\ In (path (mkSyntax (lit "Packages/User/SQL.sublime-syntax") (lit "My SQL") false
                  (lit "source.sql")))
       (map value
          [mkItem (lit "My SQL") (lit "Packages/User/SQL.sublime-syntax") KIND_AMBIGUOUS]).
Proof.
  apply (@same_scope_syntax_is_listed
           (demo_host
              [sql_syntax;
               mkSyntax (lit "Packages/User/SQL.sublime-syntax") (lit "My SQL") false
                 (lit "source.sql")]
              (sql_text mysql_path))
           sql_syntax
           (mkSyntax (lit "Packages/User/SQL.sublime-syntax") (lit "My SQL") false
              (lit "source.sql"))
           (lit "source.sql")
           [mkItem (lit "My SQL") (lit "Packages/User/SQL.sublime-syntax") KIND_AMBIGUOUS]);
    try reflexivity.
  - right. left. reflexivity.
  - vm_compute. discriminate.
Defined.

(** ** Where the file is *)

(** X8. When the packages directory is an absolute path that ends in the
    component the resource path begins with, the file [run] writes is the
    rest of the resource path below the packages directory: going to the
    parent and down again cancels the leading component. *)
Theorem target_is_below_packages (h : Host) (dirs rparts : list str) (top : str) :
  Forall plain_part (dirs ++ top :: rparts) ->
  rparts <> [] ->
  packages_path h = [chr_slash] ++ join [chr_slash] (dirs ++ [top]) ->
  target_file h (join [chr_slash] (top :: rparts)) =
    packages_path h ++ [chr_slash] ++ join [chr_slash] rparts.
Proof.
  intros Hall Hne Hp. unfold target_file, path_join. rewrite Hp.
  apply Forall_app in Hall as [Hd Hr].
  assert (Hdt : Forall plain_part (dirs ++ [top])).
  { apply Forall_app. split; [assumption|]. inversion Hr; subst. now constructor. }
  destruct (dirs ++ [top]) as [|x xs] eqn:Ex; [now destruct dirs|].
  rewrite (@parse_path_absolute _ _ Hdt), (@parse_path_plain _ _ Hr).
  cbn [p_root p_parts path_parent]. rewrite <- Ex, removelast_last.
  unfold fspath. cbn [p_root p_parts app].
  replace (dirs ++ top :: rparts) with ((dirs ++ [top]) ++ rparts)
    by now rewrite <- app_assoc.
  rewrite join_app; [|now destruct dirs|assumption]. reflexivity.
Qed.

Lemma target_is_below_packages_witness :
  target_file (demo_host registry (sql_text mysql_path))
    (join [chr_slash] [lit "Packages"; lit "SQL"; lit "SQL.sublime-syntax"]) =
  packages_path (demo_host registry (sql_text mysql_path)) ++ [chr_slash]
    ++ join [chr_slash] [lit "SQL"; lit "SQL.sublime-syntax"].
Proof.
  apply (@target_is_below_packages (demo_host registry (sql_text mysql_path))
           [lit "home"; lit "user"; lit ".config"; lit "sublime-text"]
           [lit "SQL"; lit "SQL.sublime-syntax"] (lit "Packages")).
  - repeat constructor; vm_compute; intuition discriminate.
  - discriminate.
  - reflexivity.
Defined.

(** ** From the input to the patch *)

(** X9. When [input] offers the list for arguments with a [syntax_file],
    no dialect was given, the umbrella resolves, and, in a host whose
    resolver agrees with its registry, whichever candidate is chosen
    resolves too, to a visible syntax other than the umbrella: [run] with
    the value of a candidate never prints an error. *)
Theorem chosen_candidate_always_resolves (h : Host) (resolve_none : result (option Syntax))
    (args : list (str * str)) (syntax_file : str) (hd : DialectFileInputHandler)
    (items : list ListInputItem) (it : ListInputItem) :
  coherent h ->
  dict_get args (lit "syntax_file") = Some syntax_file ->
  input h resolve_none args = Ok (Some hd) ->
  handler_list_items h hd = Ok items ->
  In it items ->
  is_falsy (dict_get args (handler_name hd)) = true
  /\ syntax_from_path h syntax_file = Some (default_syntax hd)
  /\ (exists d, syntax_from_path h (value it) = Some d
                /\ hidden d = false /\ path d <> path (default_syntax hd))
  /\ forall msg, ~ In (Print msg) (fst (run h syntax_file (value it))).
Proof.
  intros Hco Hsf Hin Hl Hit. unfold input in Hin. rewrite Hsf in Hin.
  change (handler_name hd) with (lit "dialect_file").
  destruct (is_falsy (dict_get args (lit "dialect_file"))); [|discriminate].
  destruct (syntax_from_path h syntax_file) as [u|] eqn:Eu; [|discriminate].
  injection Hin as <-. cbn [default_syntax] in *.
  unfold handler_list_items in Hl. cbn [default_syntax] in Hl.
  apply list_items_inv in Hl as (f & content & _ & _ & ->).
  apply in_map_iff in Hit as (s & <- & Hs). apply filter_In in Hs as [Hreg Hk].
  unfold keep_syntax in Hk. apply andb_true_iff in Hk as [Hk _].
  apply andb_true_iff in Hk as [Hh He]. apply negb_true_iff in Hh, He.
  unfold syntax_eqb in He. apply str_eqb_neq in He.
  cbn [value item_for]. pose proof (Hco s Hreg) as Hres.
  split; [reflexivity|]. split; [reflexivity|]. split; [now exists s|].
  intros msg. unfold run. rewrite Eu, Hres.
  destruct (load_resource h (path u)); [|intros []].
  destruct (new_content_of h (path s) _); [|intros []].
  destruct (str_eqb _ _); [intros []|].
  destruct (can_open_w h _); [|intros []].
  intros [H|[]]. discriminate H.
Qed.

Lemma chosen_candidate_always_resolves_witness :
  is_falsy (dict_get [(lit "syntax_file", sql_path)] (handler_name (mkHandler sql_syntax)))
    = true
  /\ syntax_from_path (demo_host registry (sql_text mysql_path)) sql_path =
       Some (default_syntax (mkHandler sql_syntax))
  /\ (exists d,
        syntax_from_path (demo_host registry (sql_text mysql_path))
          (value (mkItem (lit "PostgreSQL") pg_path KIND_AMBIGUOUS)) = Some d
        /\ hidden d = false /\ path d <> path (default_syntax (mkHandler sql_syntax)))
  /\ forall msg,
       ~ In (Print msg)
           (fst (run (demo_host registry (sql_text mysql_path)) sql_path
                   (value (mkItem (lit "PostgreSQL") pg_path KIND_AMBIGUOUS)))).
Proof.
  apply (@chosen_candidate_always_resolves (demo_host registry (sql_text mysql_path))
           (Ok None) [(lit "syntax_file", sql_path)] sql_path (mkHandler sql_syntax)
           [mkItem (lit "MySQL") mysql_path selected_kind;
            mkItem (lit "PostgreSQL") pg_path KIND_AMBIGUOUS;
            mkItem (lit "TSQL") tsql_path KIND_AMBIGUOUS]
           (mkItem (lit "PostgreSQL") pg_path KIND_AMBIGUOUS)).
  - intros s Hs. vm_compute in Hs.
    destruct Hs as [<-|[<-|[<-|[<-|[<-|[<-|[]]]]]]]; reflexivity.
  - reflexivity.
  - reflexivity.
  - vm_compute. reflexivity.
  - right. left. reflexivity.
Defined.

(** ** Patching twice *)

(** X10. Patching to a dialect is idempotent when its path is a resource
    path without backslash and white space: the substitution applied to its
    own result gives that result again, however many lines begin with
    [extends:], so a second call on the rewritten file changes nothing and
    writes nothing. *)
Theorem second_patch_is_noop_for_plain_paths (h : Host) (syntax_file dialect_file : str)
    (u d : Syntax) (old new : str) :
  syntax_from_path h syntax_file = Some u ->
  syntax_from_path h dialect_file = Some d ->
  resource_path (path d) -> ~ In chr_backslash (path d) ->
  Forall (fun c => isspace c = false) (path d) ->
  new_content_of h (path d) old = Ok new ->
  new_content_of h (path d) new = Ok new
  /\ run (reloaded h (path u) new) syntax_file dialect_file = ([], Ok tt).
Proof.
  intros Hu Hd Hp Hb Hs Hnew.
  pose proof (@new_content_again h (path d) old new Hp Hb Hs Hnew) as Hagain.
  split; [exact Hagain|].
  unfold run. cbn [reloaded syntax_from_path load_resource]. rewrite Hu, Hd.
  rewrite str_eqb_refl.
  change (new_content_of (reloaded h (path u) new) (path d) new)
    with (new_content_of h (path d) new).
  now rewrite Hagain, str_eqb_refl.
Qed.

Lemma second_patch_is_noop_for_plain_paths_witness :
  new_content_of (demo_host registry (sql_text mysql_path)) (path pg_syntax)
    (sql_text pg_path) = Ok (sql_text pg_path)
  /\ run (reloaded (demo_host registry (sql_text mysql_path)) (path sql_syntax)
            (sql_text pg_path)) sql_path pg_path = ([], Ok tt).
Proof.
  apply (@second_patch_is_noop_for_plain_paths (demo_host registry (sql_text mysql_path))
           sql_path pg_path sql_syntax pg_syntax (sql_text mysql_path) (sql_text pg_path));
    try reflexivity; try (repeat constructor; fail);
    vm_compute; intuition discriminate.
Defined.

(** X11. The enumerator reads back what the patcher wrote: when the old
    text has a line that is a directive followed by a token, and the dialect
    path is a resource path without backslash and white space, the search
    of [list_items] succeeds on the new text and its group 1 is the dialect
    path, so the selection is what that path resolves to. *)
Theorem patched_dialect_is_the_selection (h : Host) (p pre d tok rest new : str) :
  resource_path p -> ~ In chr_backslash p ->
  Forall (fun c => isspace c = false) p ->
  last_nl true pre = true ->
  directive_line d tok rest ->
  new_content_of h p (pre ++ d ++ tok ++ rest) = Ok new ->
  (exists m, search list_pattern new = Some m /\ group1 new m = p)
  /\ forall h', selected_of h' new = syntax_from_path h' p.
Proof.
  intros Hp Hb Hs Hbol Hl Hnew.
  assert (Hm : exists m, search list_pattern new = Some m /\ group1 new m = p).
  { unfold new_content_of, re_sub in Hnew.
    rewrite (@re_subn_plain h p _ Hp Hb) in Hnew.
    destruct (@search_finds_line _ _ _ Hl pre true 0 Hbol) as (m0 & Hm0).
    destruct (@search_kept p (@resource_path_token _ Hp Hs) (@resource_path_no_dash _ Hp)
                _ _ _ _ Hm0) as (pre' & d' & rest' & Hout & Hsearch).
    destruct (sub_loop run_pattern _ true 0 (pre ++ d ++ tok ++ rest)) as [out cnt].
    cbn [fst] in Hout, Hsearch. injection Hnew as <-.
    unfold search at 1. rewrite search_from_alike. fold (search run_pattern out).
    unfold search at 1. rewrite Hsearch. cbn [option_map]. eexists. split; [reflexivity|].
    rewrite (@group1_as_list_match _ _ Hsearch).
    unfold matched_token. cbn [m_caps m_start m_end Nat.add]. rewrite Hout.
    apply substr_token. }
  split; [exact Hm|]. intro h'. destruct Hm as (m & Hsearch & Hg).
  unfold selected_of. now rewrite Hsearch, Hg.
Qed.

Lemma patched_dialect_is_the_selection_witness :
  (exists m, search list_pattern (sql_text pg_path) = Some m
             /\ group1 (sql_text pg_path) m = pg_path)
  /\ forall h', selected_of h' (sql_text pg_path) = syntax_from_path h' pg_path.
Proof.
  apply (@patched_dialect_is_the_selection (demo_host registry (sql_text mysql_path))
           pg_path sql_head (kw_extends ++ lit " ") mysql_path sql_tail (sql_text pg_path)).
  - reflexivity.
  - vm_compute. intuition discriminate.
  - repeat constructor.
  - reflexivity.
  - apply line_plain.
    + split; [discriminate|repeat constructor].
    + split; [discriminate|repeat constructor].
    + reflexivity.
    + intros [H _]. discriminate H.
  - vm_compute. reflexivity.
Defined.

(** X12. Patching to the dialect the umbrella already names is a no-op: when
    the token of the only match is the dialect's path, nothing is written. *)
Theorem patch_to_the_named_dialect_is_noop (h : Host) (syntax_file dialect_file : str)
    (u d : Syntax) (old : str) (m : Match) :
  syntax_from_path h syntax_file = Some u ->
  syntax_from_path h dialect_file = Some d ->
  load_resource h (path u) = Some old ->
  resource_path (path d) -> ~ In chr_backslash (path d) ->
  count_extends true old <= 1 ->
  search run_pattern old = Some m ->
  matched_token old m = path d ->
  run h syntax_file dialect_file = ([], Ok tt).
Proof.
  intros Hu Hd Hl Hp Hb Hc Hm Htok.
  unfold run. rewrite Hu, Hd, Hl. unfold new_content_of, re_sub.
  rewrite (@re_subn_plain h (path d) old Hp Hb).
  destruct (@sub_loop_once (TGroup 1 :: map (fun c => TLit [c]) (path d)) old true 0 Hc)
    as [[Hn Hsub]|(pre & dd & tok & rest & Ho & Hbol & Hdd & Ht & Hr & Hm' & Hsub)].
  - unfold search in Hm. congruence.
  - rewrite Hsub. unfold search in Hm. rewrite Hm' in Hm. injection Hm as <-.
    unfold matched_token in Htok. cbn [m_caps m_start m_end Nat.add] in Htok.
    rewrite Ho, substr_token in Htok.
    rewrite expand_group1, expand_plain, <- app_assoc, <- Htok, <- Ho.
    now rewrite str_eqb_refl.
Qed.

Lemma patch_to_the_named_dialect_is_noop_witness :
  run (demo_host registry (sql_text mysql_path)) sql_path mysql_path = ([], Ok tt).
Proof.
  apply (@patch_to_the_named_dialect_is_noop (demo_host registry (sql_text mysql_path))
           sql_path mysql_path sql_syntax mysql_syntax (sql_text mysql_path)
           (mkMatch 54 96 (Some (0, 9)))); try reflexivity.
  vm_compute. intuition discriminate.
Defined.

(** ** Lines *)

Lemma token_no_nl (t : str) : token t -> occurrences chr_nl t = 0.
Proof.
  intros [_ H]. apply occurrences_zero. intro Hin.
  rewrite Forall_forall in H. apply H in Hin. discriminate Hin.
Qed.

Lemma sub_loop_lines (p : str) n :
  ~ In chr_nl p ->
  forall (s : str) bol, List.length s <= n ->
    occurrences chr_nl
      (fst (sub_loop run_pattern (TGroup 1 :: map (fun c => TLit [c]) p) bol 0 s))
    = occurrences chr_nl s.
Proof.
  intro Hp. induction n as [|n IH]; intros s bol Hn.
  - destruct s; [|simpl in Hn; lia].
    now rewrite (@sub_loop_miss _ _ _ (scan_nil bol)).
  - destruct (scan bol s) as [[dl tl]|] eqn:E.
    + destruct (@scan_sound _ _ _ _ E) as (Hb & d & tok & rest & -> & Hld & Hlt & Hd & Ht & _).
      subst dl tl bol.
      rewrite (@sub_loop_hit _ _ _ _ _ E Hd Ht). cbn [fst].
      rewrite expand_group1, expand_plain, <- app_assoc, !occurrences_app.
      rewrite (token_no_nl Ht), (proj2 (occurrences_zero chr_nl p) Hp).
      rewrite IH; [reflexivity|].
      destruct (directive_cons Hd) as (c & d' & ->).
      rewrite !length_app in Hn. cbn [List.length] in Hn. lia.
    + rewrite (@sub_loop_miss _ _ _ E). destruct s as [|c s']; [reflexivity|].
      cbn [fst]. change (c :: s') with ([c] ++ s').
      change (c :: fst (sub_loop run_pattern (TGroup 1 :: map (fun c0 => TLit [c0]) p)
                           (is_nl c) 0 s'))
        with ([c] ++ fst (sub_loop run_pattern (TGroup 1 :: map (fun c0 => TLit [c0]) p)
                            (is_nl c) 0 s')).
      rewrite !occurrences_app, IH; [reflexivity|]. simpl in Hn. lia.
Qed.

(** X13. A patch never adds or removes a line: for a dialect path that is a
    resource path without backslash and line feed, the new text has as many
    line feeds as the old one, however many [extends:] lines the text has. *)
Theorem patch_keeps_the_lines (h : Host) (dialect_path old new : str) :
  resource_path dialect_path -> ~ In chr_backslash dialect_path ->
  ~ In chr_nl dialect_path ->
  new_content_of h dialect_path old = Ok new ->
  occurrences chr_nl new = occurrences chr_nl old.
Proof.
  intros Hp Hb Hn. unfold new_content_of, re_sub.
  rewrite (@re_subn_plain h dialect_path old Hp Hb).
  pose proof (@sub_loop_lines dialect_path (List.length old) Hn old true (le_n _)) as H.
  destruct (sub_loop run_pattern _ true 0 old) as [out cnt]. cbn [fst] in H.
  intro E. injection E as <-. exact H.
Qed.

Lemma patch_keeps_the_lines_witness :
  occurrences chr_nl (sql_text pg_path) = occurrences chr_nl (sql_text mysql_path).
Proof.
  apply (@patch_keeps_the_lines (demo_host registry (sql_text mysql_path)) pg_path
           (sql_text mysql_path) (sql_text pg_path));
    try reflexivity; vm_compute; intuition discriminate.
Defined.

(** ** Order and completeness of the list *)

(** X14. The list is complete and in registry order: its values are the
    paths, and its texts the names, of the registered syntaxes that pass the
    three tests of the loop, in the order of the registry. *)
Theorem candidates_in_registry_order (h : Host) (u : Syntax) (fscope : str)
    (items : list ListInputItem) :
  filter_scope (scope u) = Ok fscope ->
  list_items h u = Ok items ->
  map value items = map path (filter (keep_syntax u fscope) (list_syntaxes h))
  /\ map text items = map name (filter (keep_syntax u fscope) (list_syntaxes h))
  /\ forall s, In s (list_syntaxes h) -> hidden s = false -> path s <> path u ->
       startswith (scope s) fscope = true -> In (path s) (map value items).
Proof.
  intros Hf Hl. apply list_items_inv in Hl as (f & content & Hf' & _ & ->).
  rewrite Hf in Hf'. injection Hf' as <-.
  rewrite map_value_item_for, map_text_item_for. split; [reflexivity|].
  split; [reflexivity|]. intros s Hin Hh Hp Hs. apply in_map. apply filter_In.
  split; [assumption|]. unfold keep_syntax, syntax_eqb. rewrite Hh, Hs.
  apply str_eqb_neq in Hp. now rewrite Hp.
Qed.

Lemma candidates_in_registry_order_witness :
  map value
    [mkItem (lit "MySQL") mysql_path selected_kind;
     mkItem (lit "PostgreSQL") pg_path KIND_AMBIGUOUS;
     mkItem (lit "TSQL") tsql_path KIND_AMBIGUOUS]
  = map path (filter (keep_syntax sql_syntax (lit "source.sql"))
                (list_syntaxes (demo_host registry (sql_text mysql_path))))
  /\ map text
       [mkItem (lit "MySQL") mysql_path selected_kind;
        mkItem (lit "PostgreSQL") pg_path KIND_AMBIGUOUS;
        mkItem (lit "TSQL") tsql_path KIND_AMBIGUOUS]
     = map name (filter (keep_syntax sql_syntax (lit "source.sql"))
                   (list_syntaxes (demo_host registry (sql_text mysql_path))))
  /\ forall s,
       In s (list_syntaxes (demo_host registry (sql_text mysql_path))) ->
       hidden s = false -> path s <> path sql_syntax ->
       startswith (scope s) (lit "source.sql") = true ->
       In (path s)
         (map value
            [mkItem (lit "MySQL") mysql_path selected_kind;
             mkItem (lit "PostgreSQL") pg_path KIND_AMBIGUOUS;
             mkItem (lit "TSQL") tsql_path KIND_AMBIGUOUS]).
Proof.
  apply (@candidates_in_registry_order (demo_host registry (sql_text mysql_path))
           sql_syntax (lit "source.sql")); vm_compute; reflexivity.
Defined.
